(** * Session-lifecycle core of bbb-webrtc-sfu: a shallow embedding

    The development follows three source files:
    - [src/lib/video/VideoManager.js]: message routing ([_onMessage]),
      start/stop handling and ICE buffering of the video manager;
    - [src/lib/audio/client-static-transceiver.js]: the full-audio
      transceiver endpoint ([ClientAudioStTransceiver]) and the audio
      session ([AudioSession]).

    Asynchronous code is written as explicit state passing.  The outcome
    of every awaited call to an external collaborator (MCS, permission
    oracle, bridge) is an input of the model, so every interleaving the
    event loop can produce at an [await] is covered by quantifying over
    those inputs. *)

From Stdlib Require Import Bool.
From Stdlib Require Import Ascii.
From stdpp Require Import base list strings gmap.


(* ------------------------------------------------------------------ *)
(** ** Inbound messages and session keys (VideoManager.js) *)

Record Message := mkMessage {
  msg_id : string;
  msg_connectionId : string;
  msg_userId : string;
  msg_meetingId : string;
  msg_voiceBridge : string;
  msg_cameraId : string;
  msg_role : string;
  msg_sdpOffer : string;
  msg_candidate : string;
  msg_answer : string;
}.

(** [VideoManager.getSessionId]: [`${userId}-${cameraId}-${role}`]. *)
Definition getSessionId (m : Message) : string :=
  (msg_userId m ++ "-" ++ msg_cameraId m ++ "-" ++ msg_role m)%string.

(** Work items pushed on a lifecycle queue.  [TCloseSession] is the task
    [_killConnectionSessions] pushes for every session of a closed
    connection. *)
Inductive Task :=
| TStart (m : Message)
| TSubscriberAnswer (m : Message)
| TStop (m : Message)
| TCloseSession (sessionId : string).

(** What [_onMessage] does with a message. *)
Inductive Dispatch :=
| DEnqueue (key : string) (t : Task)
| DIceCandidate (m : Message)
| DClose (m : Message)
| DUpstreamError (m : Message)
| DInvalidRequest (m : Message).

(** [_onMessage]: [header_ok] is whether [explodeUserInfoHeader] parsed
    the header, [ws_strict] is the [wsStrictHeaderParsing] setting. *)
Definition onMessage (ws_strict header_ok : bool) (m : Message) : Dispatch :=
  if negb header_ok && ws_strict then DInvalidRequest m
  else if String.eqb (msg_id m) "start" then DEnqueue (getSessionId m) (TStart m)
  else if String.eqb (msg_id m) "subscriberAnswer" then
    DEnqueue (getSessionId m) (TSubscriberAnswer m)
  else if String.eqb (msg_id m) "stop" then DEnqueue (getSessionId m) (TStop m)
  else if String.eqb (msg_id m) "onIceCandidate" then DIceCandidate m
  else if String.eqb (msg_id m) "close" then DClose m
  else if String.eqb (msg_id m) "error" then DUpstreamError m
  else DInvalidRequest m.

Definition is_lifecycle_id (id : string) : bool :=
  String.eqb id "start" || String.eqb id "subscriberAnswer" || String.eqb id "stop".

(* ------------------------------------------------------------------ *)
(** ** Lifecycle queues *)

(** Modelled from the spec: the per-key lifecycle queue returned by
    [_fetchLifecycleQueue] (BaseManager, not in this source tree).  "One
    FIFO per session key. A queue processes one task at a time; the next
    task starts only after the previous task's asynchronous completion
    (success or failure)."  A queue holds the task running now, if any,
    and the pending tasks in push order; tasks are named by a serial
    number. *)
Record QState := mkQState { q_running : option nat; q_pending : list nat }.

Definition q_empty : QState := mkQState None [].

Inductive Ev :=
| EPush (key : string) (tid : nat) (t : Task)
| EBegin (key : string) (tid : nat)
| EEnd (key : string) (tid : nat) (succeeded : bool).

Record Sys := mkSys {
  sys_queues : gmap string QState;
  sys_next : nat;
  sys_log : list Ev;
}.

Definition sys_init : Sys := mkSys ∅ 0 [].

Definition queue_of (s : Sys) (k : string) : QState :=
  default q_empty (sys_queues s !! k).

(** [queue.push(task)]: the queue is created on first use. *)
Definition push (s : Sys) (k : string) (t : Task) : Sys :=
  let q := queue_of s k in
  mkSys (<[k := mkQState (q_running q) (q_pending q ++ [sys_next s])]> (sys_queues s))
        (S (sys_next s)) (sys_log s ++ [EPush k (sys_next s) t]).

(** The queue starts its head task when nothing is running. *)
Definition begin_task (s : Sys) (k : string) : option Sys :=
  match queue_of s k with
  | mkQState None (t :: rest) =>
      Some (mkSys (<[k := mkQState (Some t) rest]> (sys_queues s)) (sys_next s)
                  (sys_log s ++ [EBegin k t]))
  | _ => None
  end.

(** The running task's promise settles, resolved or rejected. *)
Definition end_task (s : Sys) (k : string) (ok : bool) : option Sys :=
  match queue_of s k with
  | mkQState (Some t) rest =>
      Some (mkSys (<[k := mkQState None rest]> (sys_queues s)) (sys_next s)
                  (sys_log s ++ [EEnd k t ok]))
  | _ => None
  end.

(** Deliver a message through [_onMessage]. *)
Definition deliver (ws_strict header_ok : bool) (m : Message) (s : Sys) : Sys :=
  match onMessage ws_strict header_ok m with
  | DEnqueue k t => push s k t
  | _ => s
  end.

(** The manager's reachable states: messages arrive in any order, the
    close handler may push a close task on any key, and each queue starts
    and finishes tasks whenever it can. *)
Inductive reachable : Sys -> Prop :=
| reach_init : reachable sys_init
| reach_deliver s st hok m : reachable s -> reachable (deliver st hok m s)
| reach_kill s k : reachable s -> reachable (push s k (TCloseSession k))
| reach_begin s s' k : reachable s -> begin_task s k = Some s' -> reachable s'
| reach_end s s' k ok : reachable s -> end_task s k ok = Some s' -> reachable s'.

(** Replay of the log of one key: [serial_run k cur l] is the task
    running after [l], or [None] when [l] starts a task while another
    runs or ends a task that is not the running one. *)
Fixpoint serial_run (k : string) (cur : option nat) (l : list Ev) : option (option nat) :=
  match l with
  | [] => Some cur
  | EPush _ _ _ :: l' => serial_run k cur l'
  | EBegin k' t :: l' =>
      if String.eqb k k' then
        match cur with None => serial_run k (Some t) l' | Some _ => None end
      else serial_run k cur l'
  | EEnd k' t _ :: l' =>
      if String.eqb k k' then
        match cur with
        | Some t' => if Nat.eqb t t' then serial_run k None l' else None
        | None => None
        end
      else serial_run k cur l'
  end.

Fixpoint pushed (k : string) (l : list Ev) : list nat :=
  match l with
  | [] => []
  | EPush k' t _ :: l' => if String.eqb k k' then t :: pushed k l' else pushed k l'
  | _ :: l' => pushed k l'
  end.

Fixpoint begun (k : string) (l : list Ev) : list nat :=
  match l with
  | [] => []
  | EBegin k' t :: l' => if String.eqb k k' then t :: begun k l' else begun k l'
  | _ :: l' => begun k l'
  end.

(** The message a lifecycle task was created from. *)
Definition task_message (t : Task) : option Message :=
  match t with
  | TStart m | TSubscriberAnswer m | TStop m => Some m
  | TCloseSession _ => None
  end.

(** Every push of a message task in the log went to that message's key. *)
Definition pushes_keyed (l : list Ev) : Prop :=
  Forall (fun e => match e with
                   | EPush k _ t =>
                       match task_message t with
                       | Some m => k = getSessionId m /\ is_lifecycle_id (msg_id m) = true
                       | None => True
                       end
                   | _ => True
                   end) l.

(* ------------------------------------------------------------------ *)
(** ** Errors and client frames *)

(** Modelled from the spec: the error catalogue of [base/errors.js] (not in
    this source tree), named by the taxonomy of the spec. *)
Inductive SfuError :=
| SFU_INVALID_REQUEST
| MEDIA_SERVER_OFFLINE
| PERMISSION_DENIED
| NEGOTIATION_FAILED
| MEDIA_TIMEOUT.

(** A thrown value: a catalogue error, or a raw exception of a
    collaborator. *)
Inductive Err :=
| ECatalog (e : SfuError)
| ERaw (message : string).

(** Modelled from the spec: [_handleError] (BaseProvider/BaseManager, not
    in this source tree) normalizes a thrown value to a catalogue error;
    "any MCS RPC failure during start" is [NEGOTIATION_FAILED]. *)
Definition handleError (e : Err) : SfuError :=
  match e with
  | ECatalog c => c
  | ERaw _ => NEGOTIATION_FAILED
  end.

(** Settled value of an awaited promise. *)
Inductive Res (A : Type) :=
| Ok (a : A)
| Fail (e : Err).
Arguments Ok {A} a.
Arguments Fail {A} e.

(** Frames published on the client-facing channel. *)
Inductive Frame :=
| FAudioError (connectionId : string) (code : SfuError)
| FAudioMediaFlowing (connectionId : string)
| FAudioIceCandidate (connectionId : string) (candidate : string)
| FAudioClose (connectionId : string)
| FVideoError (connectionId cameraId role : string) (code : SfuError)
| FVideoStartResponse (connectionId role cameraId sdpAnswer : string).

(* ------------------------------------------------------------------ *)
(** ** The full-audio transceiver (client-static-transceiver.js) *)

(** Calls made on the MCS gateway and on the transceiver's bridge. *)
Inductive McsCall :=
| CWaitForConnection
| CJoin (room : string) (externalUserId : string)
| CPublish (mcsUserId room descriptor : string)
| CBridgeStart (mediaId : string)
| CConsume (sourceId sinkId kind : string)
| CConnect (sourceId : string) (sinkIds : list string) (kind : string)
| COnEvent (event mediaId : string)
| CAddIceCandidate (mediaId candidate : string)
| CUnpublish (mcsUserId mediaId : string)
| CBridgeStop.

Definition MEDIA_STATE : string := "MediaState".
Definition MEDIA_STATE_ICE : string := "MediaStateIceCandidate".

Inductive TimerKind := MediaFlowTimer | MediaStateTimer.

(** The process around one endpoint: MCS calls in call order, pending
    [setTimeout] timers (handle and watchdog), the next timer handle, and
    client frames in send order. *)
Record World := mkWorld {
  w_calls : list McsCall;
  w_timers : list (nat * TimerKind);
  w_next_timer : nat;
  w_frames : list Frame;
}.

Definition w_call (w : World) (c : McsCall) : World :=
  mkWorld (w_calls w ++ [c]) (w_timers w) (w_next_timer w) (w_frames w).

Definition w_send (w : World) (f : Frame) : World :=
  mkWorld (w_calls w) (w_timers w) (w_next_timer w) (w_frames w ++ [f]).


(** [clearTimeout(handle)]. *)
Definition w_clearTimeout (w : World) (h : nat) : World :=
  mkWorld (w_calls w) (List.filter (fun p => negb (Nat.eqb p.1 h)) (w_timers w))
          (w_next_timer w) (w_frames w).

(** The fields of a [ClientAudioStTransceiver]; [tr_bridgeMediaId] is the
    [bridgeMediaId] of its transceiver bridge, [tr_bridge] whether the
    bridge slot is still set. *)
Record Transceiver := mkTr {
  tr_connectionId : string;
  tr_userId : string;
  tr_voiceBridge : string;
  tr_mcsUserId : option string;
  tr_mediaId : option string;
  tr_mediaFlowingTimeout : option nat;
  tr_mediaStateTimeout : option nat;
  tr_candidatesQueue : list string;
  tr_bridge : bool;
  tr_bridgeMediaId : option string;
}.

Definition tr_new (connectionId userId voiceBridge : string) : Transceiver :=
  mkTr connectionId userId voiceBridge None None None None [] true None.

(** JavaScript truthiness of a string-or-null field. *)
Definition truthy (o : option string) : bool :=
  match o with Some s => negb (String.eqb s "") | None => false end.

Definition set_queue (t : Transceiver) (q : list string) : Transceiver :=
  mkTr (tr_connectionId t) (tr_userId t) (tr_voiceBridge t) (tr_mcsUserId t)
       (tr_mediaId t) (tr_mediaFlowingTimeout t) (tr_mediaStateTimeout t) q
       (tr_bridge t) (tr_bridgeMediaId t).

(** Modelled from the spec: [flushCandidatesQueue(mcs, queue, mediaId)]
    (BaseProvider, not in this source tree) "drains in FIFO order into the
    MCS": one [mcs.addIceCandidate] per candidate, in queue order. *)
Definition flushCandidatesQueue (w : World) (q : list string) (mid : string) : World :=
  fold_left (fun w c => w_call w (CAddIceCandidate mid c)) q w.

(** [_flushCandidatesQueue]: the array is always truthy. *)
Definition _flushCandidatesQueue (t : Transceiver) (w : World) : Transceiver * World :=
  match tr_mediaId t with
  | Some mid =>
      if truthy (tr_mediaId t)
      then (set_queue t [], flushCandidatesQueue w (tr_candidatesQueue t) mid)
      else (t, w)
  | None => (t, w)
  end.

(** [onIceCandidate]. *)
Definition onIceCandidate (t : Transceiver) (w : World) (c : string) : Transceiver * World :=
  match tr_mediaId t with
  | Some mid =>
      if truthy (tr_mediaId t) then
        let '(t1, w1) := _flushCandidatesQueue t w in
        (t1, w_call w1 (CAddIceCandidate mid c))
      else (set_queue t (tr_candidatesQueue t ++ [c]), w)
  | None => (set_queue t (tr_candidatesQueue t ++ [c]), w)
  end.

(** [this.mediaId = mediaId] after [mcs.publish] in [_negotiateTransceiver]. *)
Definition set_mediaId (t : Transceiver) (mid : string) : Transceiver :=
  mkTr (tr_connectionId t) (tr_userId t) (tr_voiceBridge t) (tr_mcsUserId t)
       (Some mid) (tr_mediaFlowingTimeout t) (tr_mediaStateTimeout t)
       (tr_candidatesQueue t) (tr_bridge t) (tr_bridgeMediaId t).

(** Events that touch the ICE queue of one transceiver: a client
    candidate, the media id being recorded, and the flush of step 8. *)
Inductive IceOp :=
| IceArrive (candidate : string)
| IcePublished (mediaId : string)
| IceFlush.

Fixpoint ice_run (ops : list IceOp) (t : Transceiver) (w : World) : Transceiver * World :=
  match ops with
  | [] => (t, w)
  | IceArrive c :: ops' => let '(t1, w1) := onIceCandidate t w c in ice_run ops' t1 w1
  | IcePublished mid :: ops' => ice_run ops' (set_mediaId t mid) w
  | IceFlush :: ops' => let '(t1, w1) := _flushCandidatesQueue t w in ice_run ops' t1 w1
  end.

Fixpoint arrivals (ops : list IceOp) : list string :=
  match ops with
  | [] => []
  | IceArrive c :: ops' => c :: arrivals ops'
  | _ :: ops' => arrivals ops'
  end.

(** Candidates handed to [mcs.addIceCandidate], in call order. *)
Fixpoint forwarded (l : list McsCall) : list string :=
  match l with
  | [] => []
  | CAddIceCandidate _ c :: l' => c :: forwarded l'
  | _ :: l' => forwarded l'
  end.

Definition w_calls_app (w : World) (l : list McsCall) : World :=
  mkWorld (w_calls w ++ l) (w_timers w) (w_next_timer w) (w_frames w).

(** Settled values of the collaborator calls of [start], in call order.
    [mcs.connect] returns a promise too, but [_negotiateTransceiver] does
    not await it: its outcome is an input nothing reads. *)
Record StartEnv := mkStartEnv {
  se_waitForConnection : bool;
  se_join : Res string;          (* mcsUserId *)
  se_publish : Res string;       (* mediaId *)
  se_bridgeStart : Res string;   (* the bridge's bridgeMediaId once started *)
  se_consume : Res string;       (* SDP answer *)
  se_connect_out : Res unit;
  se_connect_in : Res unit;
}.

Definition set_mcsUserId (t : Transceiver) (uid : string) : Transceiver :=
  mkTr (tr_connectionId t) (tr_userId t) (tr_voiceBridge t) (Some uid)
       (tr_mediaId t) (tr_mediaFlowingTimeout t) (tr_mediaStateTimeout t)
       (tr_candidatesQueue t) (tr_bridge t) (tr_bridgeMediaId t).

Definition set_bridgeMediaId (t : Transceiver) (bmid : string) : Transceiver :=
  mkTr (tr_connectionId t) (tr_userId t) (tr_voiceBridge t) (tr_mcsUserId t)
       (tr_mediaId t) (tr_mediaFlowingTimeout t) (tr_mediaStateTimeout t)
       (tr_candidatesQueue t) (tr_bridge t) (Some bmid).

(** [_negotiateTransceiver(sdpOffer)]: errors of the [try] block are
    rethrown normalized; the two [onEvent] subscriptions, the queue flush
    and the return follow it. *)
Definition _negotiateTransceiver (env : StartEnv) (sdpOffer : string)
    (t : Transceiver) (w : World) : Res string * Transceiver * World :=
  let uid := default "" (tr_mcsUserId t) in
  let w := w_call w (CPublish uid (tr_voiceBridge t) sdpOffer) in
  match se_publish env with
  | Fail e => (Fail (ECatalog (handleError e)), t, w)
  | Ok mid =>
      let t := set_mediaId t mid in
      let w := w_call w (CBridgeStart mid) in
      match se_bridgeStart env with
      | Fail e => (Fail (ECatalog (handleError e)), t, w)
      | Ok bmid =>
          let t := set_bridgeMediaId t bmid in
          let w := w_call w (CConsume bmid mid "AUDIO") in
          match se_consume env with
          | Fail e => (Fail (ECatalog (handleError e)), t, w)
          | Ok answer =>
              let w := w_call w (CConnect mid [bmid] "AUDIO") in
              let w := w_call w (CConnect bmid [mid] "AUDIO") in
              let w := w_call w (COnEvent MEDIA_STATE mid) in
              let w := w_call w (COnEvent MEDIA_STATE_ICE mid) in
              let '(t, w) := _flushCandidatesQueue t w in
              (Ok answer, t, w)
          end
      end
  end.

(** [start(sdpOffer)]. *)
Definition start (env : StartEnv) (sdpOffer : string) (t : Transceiver) (w : World)
    : Res string * Transceiver * World :=
  let w := w_call w CWaitForConnection in
  if negb (se_waitForConnection env)
  then (Fail (ECatalog (handleError (ECatalog MEDIA_SERVER_OFFLINE))), t, w)
  else
    let w := w_call w (CJoin (tr_voiceBridge t) (tr_userId t)) in
    match se_join env with
    | Fail e => (Fail (ECatalog (handleError e)), t, w)
    | Ok uid =>
        match _negotiateTransceiver env sdpOffer (set_mcsUserId t uid) w with
        | (Ok answer, t', w') => (Ok answer, t', w')
        | (Fail e, t', w') => (Fail (ECatalog (handleError e)), t', w')
        end
    end.

(** The first awaited call of [start] that rejects, if any. *)
Definition first_awaited_failure (env : StartEnv) : option Err :=
  match se_join env with
  | Fail e => Some e
  | Ok _ =>
      match se_publish env with
      | Fail e => Some e
      | Ok _ =>
          match se_bridgeStart env with
          | Fail e => Some e
          | Ok _ => match se_consume env with Fail e => Some e | Ok _ => None end
          end
      end
  end.

Definition is_fail {A} (r : Res A) : bool :=
  match r with Fail _ => true | Ok _ => false end.

(** Some MCS or bridge call issued by [start] rejects. *)
Definition some_call_fails (env : StartEnv) : Prop :=
  first_awaited_failure env <> None \/
  is_fail (se_connect_out env) = true \/ is_fail (se_connect_in env) = true.

Definition with_connects (env : StartEnv) (c_out c_in : Res unit) : StartEnv :=
  mkStartEnv (se_waitForConnection env) (se_join env) (se_publish env)
             (se_bridgeStart env) (se_consume env) c_out c_in.

(* ------------------------------------------------------------------ *)
(** ** Media watchdogs of the transceiver *)

Definition set_flowT (t : Transceiver) (h : option nat) : Transceiver :=
  mkTr (tr_connectionId t) (tr_userId t) (tr_voiceBridge t) (tr_mcsUserId t)
       (tr_mediaId t) h (tr_mediaStateTimeout t)
       (tr_candidatesQueue t) (tr_bridge t) (tr_bridgeMediaId t).

Definition set_stateT (t : Transceiver) (h : option nat) : Transceiver :=
  mkTr (tr_connectionId t) (tr_userId t) (tr_voiceBridge t) (tr_mcsUserId t)
       (tr_mediaId t) (tr_mediaFlowingTimeout t) h
       (tr_candidatesQueue t) (tr_bridge t) (tr_bridgeMediaId t).

Definition set_bridge (t : Transceiver) (b : bool) : Transceiver :=
  mkTr (tr_connectionId t) (tr_userId t) (tr_voiceBridge t) (tr_mcsUserId t)
       (tr_mediaId t) (tr_mediaFlowingTimeout t) (tr_mediaStateTimeout t)
       (tr_candidatesQueue t) b (tr_bridgeMediaId t).


(** [clearMediaFlowingTimeout]. *)
Definition clearMediaFlowingTimeout (t : Transceiver) (w : World) : Transceiver * World :=
  match tr_mediaFlowingTimeout t with
  | Some h => (set_flowT t None, w_clearTimeout w h)
  | None => (t, w)
  end.


(** [clearMediaStateTimeout]. *)
Definition clearMediaStateTimeout (t : Transceiver) (w : World) : Transceiver * World :=
  match tr_mediaStateTimeout t with
  | Some h => (set_stateT t None, w_clearTimeout w h)
  | None => (t, w)
  end.


Definition MEDIA_SERVER_OFFLINE_EVENT : string := "MEDIA_SERVER_OFFLINE".





(** [ClientAudioStTransceiver.stop]: the [unpublish] rejection is caught
    and logged, so its outcome changes nothing observable here. *)
Definition tr_stop (t : Transceiver) (w : World) : Transceiver * World :=
  let t := set_queue t [] in
  let '(t, w) := clearMediaFlowingTimeout t w in
  let '(t, w) := clearMediaStateTimeout t w in
  let w := if truthy (tr_mediaId t) && truthy (tr_mcsUserId t) then
             w_call w (CUnpublish (default "" (tr_mcsUserId t)) (default "" (tr_mediaId t)))
           else w in
  if tr_bridge t then (set_bridge t false, w_call w CBridgeStop) else (t, w).

(** [processAnswer(answer)]: a new [publish] with the answer as
    descriptor once a media id is recorded; otherwise a resolved promise. *)
Definition tr_processAnswer (t : Transceiver) (w : World) (answer : string) : World :=
  if truthy (tr_mediaId t)
  then w_call w (CPublish (default "" (tr_mcsUserId t)) (tr_voiceBridge t) answer)
  else w.



(** Handles of the pending timers of one watchdog. *)
Definition pending (k : TimerKind) (w : World) : list nat :=
  map fst (List.filter (fun p => match p.2, k with
                            | MediaFlowTimer, MediaFlowTimer | MediaStateTimer, MediaStateTimer => true
                            | _, _ => false end) (w_timers w)).

(* ------------------------------------------------------------------ *)
(** ** The audio session (AudioSession in client-static-transceiver.js) *)

(** Event listeners a session or its endpoint may hold; a session's
    bound handlers are named by the session id. *)
Inductive Listener :=
| LUserLeft (userId sessionId : string)      (* bbbGW USER_LEFT_MEETING_2x+userId *)
| LSessionMcsDisconnected (sessionId : string)
| LEndpointOffline (endpoint : string)        (* clientEndpoint.once(MEDIA_SERVER_OFFLINE) *)
| LEndpointMcsDisconnected (endpoint : string).

Record AWorld := mkAWorld {
  aw_listeners : list Listener;
  aw_world : World;
}.

Definition listener_eqb (a b : Listener) : bool :=
  match a, b with
  | LUserLeft u s, LUserLeft u' s' => String.eqb u u' && String.eqb s s'
  | LSessionMcsDisconnected s, LSessionMcsDisconnected s' => String.eqb s s'
  | LEndpointOffline s, LEndpointOffline s' => String.eqb s s'
  | LEndpointMcsDisconnected e, LEndpointMcsDisconnected e' => String.eqb e e'
  | _, _ => false
  end.

(** [emitter.removeListener(event, handler)]. *)
Definition removeListener (l : Listener) (aw : AWorld) : AWorld :=
  mkAWorld (List.filter (fun l' => negb (listener_eqb l l')) (aw_listeners aw)) (aw_world aw).

Definition aw_map_world (f : World -> World) (aw : AWorld) : AWorld :=
  mkAWorld (aw_listeners aw) (f (aw_world aw)).

Section AudioSessionStop.
(** The endpoint variant is left open: [ep_name] names its bound
  handlers, [ep_world_stop] is what its [stop] does to the MCS, the
  timers and the client channel.  Its promise resolves: both variants
  catch their own failures. *)
Variable Endpoint : Type.
Variable ep_name : Endpoint -> string.
Variable ep_world_stop : Endpoint -> World -> World.

(** The endpoint's [finalDetachEventListeners]: [_untrackMCSEvents] and
    [removeAllListeners], which drops the session's
    [once(MEDIA_SERVER_OFFLINE)] handler. *)
Definition ep_detach (e : Endpoint) (aw : AWorld) : AWorld :=
  removeListener (LEndpointOffline (ep_name e))
    (removeListener (LEndpointMcsDisconnected (ep_name e)) aw).

(** The endpoint's [stop]: it untracks its MCS events, then acts on the
  world. *)
Definition ep_stop (e : Endpoint) (aw : AWorld) : AWorld :=
  aw_map_world (ep_world_stop e) (removeListener (LEndpointMcsDisconnected (ep_name e)) aw).

Record AudioSession := mkAudioSession {
  as_id : string;
  as_userId : string;
  as_connectionId : string;
  as_clientEndpoint : option Endpoint;
}.

Definition set_clientEndpoint_null (s : AudioSession) : AudioSession :=
  mkAudioSession (as_id s) (as_userId s) (as_connectionId s) None.

(** [_clearClientEndpointEvents]. *)
Definition _clearClientEndpointEvents (s : AudioSession) (aw : AWorld) : AWorld :=
  match as_clientEndpoint s with Some e => ep_detach e aw | None => aw end.

(** The [clientEndpoint] setter called with [null]. *)
Definition clientEndpoint_set_null (s : AudioSession) (aw : AWorld) : AudioSession * AWorld :=
  (set_clientEndpoint_null s, _clearClientEndpointEvents s aw).

(** [AudioSession.stop]: [typeof this.clientEndpoint.stop] is a
  non-empty string, so only the slot is tested. *)
Definition as_stop (s : AudioSession) (aw : AWorld) : AudioSession * AWorld :=
  let aw := _clearClientEndpointEvents s aw in
  let aw := removeListener (LUserLeft (as_userId s) (as_id s)) aw in
  let aw := removeListener (LSessionMcsDisconnected (as_id s)) aw in
  let aw := match as_clientEndpoint s with Some e => ep_stop e aw | None => aw end in
  clientEndpoint_set_null s aw.
End AudioSessionStop.

Arguments as_stop {Endpoint} ep_name ep_world_stop s aw.
Arguments mkAudioSession {Endpoint}.
Arguments as_clientEndpoint {Endpoint}.
Arguments as_id {Endpoint}.
Arguments as_userId {Endpoint}.
Arguments as_connectionId {Endpoint}.

(* ------------------------------------------------------------------ *)
(** ** The video manager's session table (VideoManager.js) *)

(** Media status constants of [bbb/messages/Constants] (not in this
    source tree). *)
Definition MEDIA_STARTING : string := "MEDIA_STARTING".
Definition MEDIA_STARTED : string := "MEDIA_STARTED".
Definition MEDIA_STOPPING : string := "MEDIA_STOPPING".
Definition MEDIA_STOPPED : string := "MEDIA_STOPPED".

(** A [Video] instance; [v_obj] is its object identity. *)
Record Video := mkVideo {
  v_obj : nat;
  v_id : string;
  v_connectionId : string;
  v_cameraId : string;
  v_role : string;
  v_status : string;
}.

(** The values [isVideoInstanceReady] may be given: [undefined] (no
    session), a [Video], or an object of another class. *)
Inductive JsValue :=
| JsUndefined
| JsVideo (v : Video)
| JsOther (className : string).

(** [VideoManager.isVideoInstanceReady]. *)
Definition isVideoInstanceReady (x : JsValue) : bool :=
  match x with
  | JsVideo v => negb (String.eqb (v_status v) MEDIA_STOPPED)
                 || negb (String.eqb (v_status v) MEDIA_STOPPING)
  | _ => false
  end.

(** What the manager did to the [Video] objects, in order. *)
Inductive VEv :=
| VStopSession (sessionId : string) (obj : nat)
| VNewVideo (obj : nat) (sessionId : string)
| VVideoStart (obj : nat) (sdpOffer : string)
| VVideoIceCandidate (obj : nat) (candidate : string).

(** The manager: the session table (a [Map], in insertion order), the
    pending-ICE queues, client frames, the error metric increments
    ([method], [errorCode]) and the object log. *)
Record VState := mkVState {
  vs_sessions : list (string * Video);
  vs_iceQueues : gmap string (list string);
  vs_frames : list Frame;
  vs_errors : list (string * SfuError);
  vs_log : list VEv;
  vs_next_obj : nat;
}.

Fixpoint assoc_get (l : list (string * Video)) (k : string) : option Video :=
  match l with
  | [] => None
  | (k', v) :: l' => if String.eqb k k' then Some v else assoc_get l' k
  end.

(** [Map.prototype.set]: an existing key keeps its position. *)
Fixpoint assoc_set (l : list (string * Video)) (k : string) (v : Video) : list (string * Video) :=
  match l with
  | [] => [(k, v)]
  | (k', v') :: l' => if String.eqb k k' then (k, v) :: l' else (k', v') :: assoc_set l' k v
  end.

(** [Map.prototype.delete]. *)
Definition assoc_delete (l : list (string * Video)) (k : string) : list (string * Video) :=
  List.filter (fun p => negb (String.eqb k p.1)) l.

Definition getSession (st : VState) (k : string) : option Video := assoc_get (vs_sessions st) k.

Definition js_of_session (o : option Video) : JsValue :=
  match o with Some v => JsVideo v | None => JsUndefined end.

Definition vs_with_sessions (st : VState) (l : list (string * Video)) : VState :=
  mkVState l (vs_iceQueues st) (vs_frames st) (vs_errors st) (vs_log st) (vs_next_obj st).

Definition vs_with_ice (st : VState) (q : gmap string (list string)) : VState :=
  mkVState (vs_sessions st) q (vs_frames st) (vs_errors st) (vs_log st) (vs_next_obj st).

Definition vs_log_ev (st : VState) (e : VEv) : VState :=
  mkVState (vs_sessions st) (vs_iceQueues st) (vs_frames st) (vs_errors st)
           (vs_log st ++ [e]) (vs_next_obj st).

Definition vs_send (st : VState) (f : Frame) : VState :=
  mkVState (vs_sessions st) (vs_iceQueues st) (vs_frames st ++ [f]) (vs_errors st)
           (vs_log st) (vs_next_obj st).

(** [storeSession] (BaseManager): [this.sessions.set(id, session)]. *)
Definition storeSession (st : VState) (k : string) (v : Video) : VState :=
  vs_with_sessions st (assoc_set (vs_sessions st) k v).

(** [_fetchIceQueue] (BaseManager): the queue of a key, created empty on
    first use. *)
Definition _fetchIceQueue (st : VState) (k : string) : list string * VState :=
  match vs_iceQueues st !! k with
  | Some q => (q, st)
  | None => ([], vs_with_ice st (<[k := []]> (vs_iceQueues st)))
  end.

(** Modelled from the spec: [_stopSession] (BaseManager, not in this
    source tree) stops the stored session, if any, and removes it from
    the table; "destroyed when stop completes (success or failure)".
    [_closeSession] then deletes the key's ICE queue whatever the
    outcome. *)
Definition _closeSession (st : VState) (k : string) : VState :=
  let st := match getSession st k with
            | Some v => vs_with_sessions (vs_log_ev st (VStopSession k (v_obj v)))
                                         (assoc_delete (vs_sessions st) k)
            | None => st
            end in
  vs_with_ice st (delete k (vs_iceQueues st)).

(** The error path shared by the handlers: [_handleError], the error
    metric labelled with the request's [id], and the error frame. *)
Definition report_error (st : VState) (req : Message) (e : Err) : VState :=
  let code := handleError e in
  mkVState (vs_sessions st) (vs_iceQueues st)
           (vs_frames st ++ [FVideoError (msg_connectionId req) (msg_cameraId req) (msg_role req) code])
           (vs_errors st ++ [(msg_id req, code)]) (vs_log st) (vs_next_obj st).

(** Outcomes of the awaited calls of [handleStart]: the broadcast and
    subscribe permission queries of the oracle ([video-perm-utils.js], not
    in this source tree; [None] means granted, [Some e] that the promise
    rejects with [e]) and [video.start]. *)
Record VStartEnv := mkVStartEnv {
  ve_broadcastPermission : option Err;
  ve_subscribePermission : option Err;
  ve_videoStart : Res string;
}.

(** [_getPermission]: any other role throws [SFU_INVALID_REQUEST]. *)
Definition _getPermission (env : VStartEnv) (req : Message) : option Err :=
  if String.eqb (msg_role req) "share" then ve_broadcastPermission env
  else if String.eqb (msg_role req) "viewer" then ve_subscribePermission env
  else Some (ECatalog SFU_INVALID_REQUEST).

Definition vs_new_obj (st : VState) : VState :=
  mkVState (vs_sessions st) (vs_iceQueues st) (vs_frames st) (vs_errors st)
           (vs_log st) (S (vs_next_obj st)).

(** Modelled from the spec: [_flushIceQueue(video, queue)] (BaseManager,
    not in this source tree) hands the queued candidates to
    [video.onIceCandidate] in FIFO order and empties the queue.  The
    queue is the array fetched at the top of [handleStart]; when the
    stale session was closed its table entry is gone, and emptying the
    detached array changes no entry. *)
Definition _flushIceQueue (st : VState) (k : string) (v : Video) (q : list string)
    (attached : bool) : VState :=
  let st := fold_left (fun st c => vs_log_ev st (VVideoIceCandidate (v_obj v) c)) q st in
  if attached then vs_with_ice st (<[k := []]> (vs_iceQueues st)) else st.

(** [handleStart].  Between its [await]s only [handleIceCandidate] and
    event handlers can run, and none of them changes the session table;
    every other table update is a lifecycle task of the same key, which
    the lifecycle queue runs after this one.  The table effects are
    therefore written here in one pass. *)
Definition handleStart (env : VStartEnv) (req : Message) (st : VState) : VState :=
  let sessionId := getSessionId req in
  match _getPermission env req with
  | Some e => report_error st req e
  | None =>
      let video := getSession st sessionId in
      let '(iceQueue, st) := _fetchIceQueue st sessionId in
      let st := match video with Some _ => _closeSession st sessionId | None => st end in
      let v := mkVideo (vs_next_obj st) sessionId (msg_connectionId req) (msg_cameraId req)
                       (msg_role req) MEDIA_STARTING in
      let st := vs_log_ev (vs_new_obj st) (VNewVideo (v_obj v) sessionId) in
      let st := storeSession st sessionId v in
      let st := vs_log_ev st (VVideoStart (v_obj v) (msg_sdpOffer req)) in
      match ve_videoStart env with
      | Fail e => report_error st req e
      | Ok sdpAnswer =>
          let st := _flushIceQueue st sessionId v iceQueue
                      (match video with Some _ => false | None => true end) in
          vs_send st (FVideoStartResponse (msg_connectionId req) (msg_role req)
                                          (msg_cameraId req) sdpAnswer)
      end
  end.

(** [handleIceCandidate]. *)
Definition handleIceCandidate (m : Message) (st : VState) : VState :=
  let sessionId := getSessionId m in
  let video := getSession st sessionId in
  let '(iceQueue, st) := _fetchIceQueue st sessionId in
  match video with
  | Some v =>
      if isVideoInstanceReady (JsVideo v)
      then vs_log_ev st (VVideoIceCandidate (v_obj v) (msg_candidate m))
      else vs_with_ice st (<[sessionId := iceQueue ++ [msg_candidate m]]> (vs_iceQueues st))
  | None =>
      if isVideoInstanceReady JsUndefined
      then st
      else vs_with_ice st (<[sessionId := iceQueue ++ [msg_candidate m]]> (vs_iceQueues st))
  end.

(** The state [handleStart] reaches, after a granted permission, once it
    has stored the new session and called [video.start]; [st2] is the
    state after the stale session is closed. *)
Definition closed_state (req : Message) (st : VState) : VState :=
  let sessionId := getSessionId req in
  let st1 := (_fetchIceQueue st sessionId).2 in
  match getSession st sessionId with Some _ => _closeSession st1 sessionId | None => st1 end.

Definition new_video (req : Message) (st2 : VState) : Video :=
  mkVideo (vs_next_obj st2) (getSessionId req) (msg_connectionId req) (msg_cameraId req)
          (msg_role req) MEDIA_STARTING.

Definition stored_state (req : Message) (st : VState) : VState :=
  let st2 := closed_state req st in
  let v := new_video req st2 in
  let st3 := vs_log_ev (vs_new_obj st2) (VNewVideo (v_obj v) (getSessionId req)) in
  let st4 := storeSession st3 (getSessionId req) v in
  vs_log_ev st4 (VVideoStart (v_obj v) (msg_sdpOffer req)).

(** Reference reading of readiness: "status in {STARTING, STARTED}". *)
Definition spec_isVideoInstanceReady (x : JsValue) : bool :=
  match x with
  | JsVideo v => String.eqb (v_status v) MEDIA_STARTING || String.eqb (v_status v) MEDIA_STARTED
  | _ => false
  end.

(* ------------------------------------------------------------------ *)
(** ** External webcam sources *)

(** Case-insensitive comparison with a lowercase letter [u]: [c] is [u]
    or its uppercase. *)
Definition ascii_ieqb (c u : Ascii.ascii) : bool :=
  Ascii.eqb c u || Ascii.eqb c (Ascii.ascii_of_nat (Ascii.nat_of_ascii u - 32)).

(** [userId.match(/^v_*/ig)]: anchored at the start, a [v] in either case
    followed by zero or more [_]; the [_*] always matches, so the match is
    non-null exactly when the first character is [v] or [V]. *)
Fixpoint match_underscores (s : string) : nat :=
  match s with
  | String c t => if Ascii.eqb c "_"%char then S (match_underscores t) else 0
  | EmptyString => 0
  end.

Definition match_v_prefix (s : string) : option nat :=
  match s with
  | String c t => if ascii_ieqb c "v"%char then Some (S (match_underscores t)) else None
  | EmptyString => None
  end.

(** [stream.replace(/\|SIP/ig, '')]: every occurrence, in either case,
    scanning left to right. *)
Fixpoint strip_sip (s : string) : string :=
  match s with
  | String c1 ((String c2 (String c3 (String c4 rest))) as t) =>
      if Ascii.eqb c1 "|"%char && ascii_ieqb c2 "s"%char && ascii_ieqb c3 "i"%char
         && ascii_ieqb c4 "p"%char
      then strip_sip rest
      else String c1 (strip_sip t)
  | String c t => String c (strip_sip t)
  | EmptyString => EmptyString
  end.

(** Modelled from the spec: [Video.setSource] (video.js, not in this
    source tree) registers a name in the process-wide source table. *)
Definition setSource (src : gmap string string) (k v : string) : gmap string string :=
  <[k := v]> src.

(** The [USER_CAM_BROADCAST_STARTED_2x] handler of
    [_trackExternalWebcamSources]. *)
Definition onUserCamBroadcastStarted (stream userId : string) (src : gmap string string)
    : gmap string string :=
  match match_v_prefix userId with
  | Some _ =>
      let normalizedStreamName := strip_sip stream in
      let src := setSource src stream normalizedStreamName in
      setSource src userId normalizedStreamName
  | None => src
  end.

(** Reference reading: the reserved prefix [v_], and a [|SIP] suffix
    stripped. *)
Definition spec_has_prefix_v_ (s : string) : bool := String.prefix "v_" s.

Definition spec_strip_sip_suffix (s : string) : string :=
  if String.eqb (String.substring (String.length s - 4) 4 s) "|SIP" && (4 <=? String.length s)
  then String.substring 0 (String.length s - 4) s else s.

Definition spec_onUserCamBroadcastStarted (stream userId : string)
    (src : gmap string string) : gmap string string :=
  if spec_has_prefix_v_ userId
  then let n := spec_strip_sip_suffix stream in <[userId := n]> (<[stream := n]> src)
  else src.


(* ------------------------------------------------------------------ *)
(** ** Sample inputs *)

(** A [start] request of a sharer, and a table holding a started session
    under its key. *)
Definition ex_start_request : Message :=
  mkMessage "start" "c1" "u1" "m1" "vb1" "cam1" "share" "offer" "" "".

Definition ex_state_with_session : VState :=
  mkVState [(getSessionId ex_start_request,
             mkVideo 0 (getSessionId ex_start_request) "c1" "cam1" "share" MEDIA_STARTED)]
           ∅ [] [] [] 1.

Definition ex_empty_state : VState := mkVState [] ∅ [] [] [] 0.

Definition ex_empty_world : World := mkWorld [] [] 0 [].


(* ------------------------------------------------------------------ *)
(** ** Further handlers of [VideoManager] *)

(** [_killConnectionSessions(connectionId)]: in table order, one close
    task on the key's lifecycle queue for every stored session of the
    connection (a stored [Video] is always truthy). *)
Definition _killConnectionSessions (sessions : list (string * Video)) (connectionId : string)
    (s : Sys) : Sys :=
  fold_left (fun s p => if String.eqb (v_connectionId p.2) connectionId
                        then push s p.1 (TCloseSession p.1) else s) sessions s.

(** [handleClose(message)]. *)
Definition handleClose (m : Message) (sessions : list (string * Video)) (s : Sys) : Sys :=
  _killConnectionSessions sessions (msg_connectionId m) s.

(** The (key, task) pairs of the pushes of a log, in order. *)
Fixpoint push_keys (l : list Ev) : list (string * Task) :=
  match l with
  | [] => []
  | EPush k _ t :: l' => (k, t) :: push_keys l'
  | _ :: l' => push_keys l'
  end.

Definition is_push (e : Ev) : bool :=
  match e with EPush _ _ _ => true | _ => false end.

(** [_handleInvalidRequest(message)]: the metric is labelled
    [message.id || 'event']. *)
Definition _handleInvalidRequest (m : Message) (st : VState) : VState :=
  let code := handleError (ECatalog SFU_INVALID_REQUEST) in
  mkVState (vs_sessions st) (vs_iceQueues st)
           (vs_frames st ++ [FVideoError (msg_connectionId m) (msg_cameraId m) (msg_role m) code])
           (vs_errors st ++ [(if String.eqb (msg_id m) "" then "event"%string else msg_id m, code)])
           (vs_log st) (vs_next_obj st).

(** The part of [_onMessage] that runs at once on the video state. *)
Definition onMessage_immediate (ws_strict header_ok : bool) (m : Message) (st : VState) : VState :=
  match onMessage ws_strict header_ok m with
  | DIceCandidate m => handleIceCandidate m st
  | DInvalidRequest m => _handleInvalidRequest m st
  | _ => st
  end.

(* ------------------------------------------------------------------ *)
(** ** Further methods of [ClientAudioStTransceiver] *)


(* ------------------------------------------------------------------ *)
(** ** Further methods of [AudioSession] *)

(** [onIceCandidate(candidate)]: handed to the endpoint, if any. *)
Definition as_onIceCandidate {Endpoint} (ep_ice : Endpoint -> string -> AWorld -> AWorld)
    (s : AudioSession Endpoint) (c : string) (aw : AWorld) : AWorld :=
  match as_clientEndpoint s with Some e => ep_ice e c aw | None => aw end.

(** [dtmf(tones)]: [ep_dtmf e] is the endpoint's [dtmf], if it has one. *)
Definition as_dtmf {Endpoint} (ep_dtmf : Endpoint -> option (string -> string))
    (s : AudioSession Endpoint) (tones : string) : string :=
  match as_clientEndpoint s with
  | Some e => match ep_dtmf e with Some f => f tones | None => "" end
  | None => ""
  end.

(** [disconnectUser]: [stop], whose promise resolves, then the [close]
    frame of the [finally] block. *)
Definition as_disconnectUser {Endpoint} (ep_name : Endpoint -> string)
    (ep_world_stop : Endpoint -> World -> World) (s : AudioSession Endpoint) (aw : AWorld)
    : AudioSession Endpoint * AWorld :=
  let '(s1, aw1) := as_stop ep_name ep_world_stop s aw in
  (s1, aw_map_world (fun w => w_send w (FAudioClose (as_connectionId s))) aw1).

Definition set_clientEndpoint {Endpoint} (s : AudioSession Endpoint) (e : Endpoint)
    : AudioSession Endpoint :=
  mkAudioSession (as_id s) (as_userId s) (as_connectionId s) (Some e).

(** [_trackClientEndpointEvents]: a [once(MEDIA_SERVER_OFFLINE)] handler
    on the endpoint. *)
Definition _trackClientEndpointEvents {Endpoint} (ep_name : Endpoint -> string)
    (s : AudioSession Endpoint) (aw : AWorld) : AWorld :=
  match as_clientEndpoint s with
  | Some e => mkAWorld (aw_listeners aw ++ [LEndpointOffline (ep_name e)]) (aw_world aw)
  | None => aw
  end.

(** The consumer-bridge storage of [consumer-bridge-storage.js] (not in
    this source tree) is a map from meeting id to bridge; a bridge is
    named by its construction number.  Calls of [_startConsumerBridge]
    on the bridges, in order. *)
Inductive BridgeCall :=
| BNew (bridge : nat) (meetingId voiceBridge : string)
| BStart (bridge : nat).

Record BridgeStore := mkBridgeStore {
  bs_map : gmap string nat;
  bs_next : nat;
  bs_calls : list BridgeCall;
}.

(** [_startConsumerBridge]: [isRunning b] is the stored bridge's
    [isRunning()], [start_res] how its [start()] settles. *)
Definition _startConsumerBridge (isRunning : nat -> bool) (start_res : Res unit)
    (meetingId voiceBridge : string) (bs : BridgeStore) : Res nat * BridgeStore :=
  match bs_map bs !! meetingId with
  | Some b =>
      if isRunning b then (Ok b, bs)
      else (match start_res with Ok _ => Ok b | Fail e => Fail e end,
            mkBridgeStore (bs_map bs) (bs_next bs) (bs_calls bs ++ [BStart b]))
  | None =>
      let b := bs_next bs in
      (match start_res with Ok _ => Ok b | Fail e => Fail e end,
       mkBridgeStore (<[meetingId := b]> (bs_map bs)) (S b)
                     (bs_calls bs ++ [BNew b meetingId voiceBridge; BStart b]))
  end.

(** Stores reached from the empty one by any calls. *)
Inductive bs_reach : BridgeStore -> Prop :=
| bs_init : bs_reach (mkBridgeStore ∅ 0 [])
| bs_step bs isRunning start_res meetingId voiceBridge :
    bs_reach bs ->
    bs_reach (_startConsumerBridge isRunning start_res meetingId voiceBridge bs).2.

(** Meetings for which a bridge was constructed, in order. *)
Fixpoint new_meetings (l : list BridgeCall) : list string :=
  match l with
  | [] => []
  | BNew _ m _ :: l' => m :: new_meetings l'
  | _ :: l' => new_meetings l'
  end.


(** [AudioSession.start(sdpOffer)]: [role] is the session's role,
    [fullAudio] the [fullAudioEnabled] setting, [meetingId] and
    [voiceBridge] the session's, [transceiver] the endpoint [transceive]
    constructs and [consumer b] the one [listen] constructs on the
    consumer bridge [b]; [isRunning] and [bridge_start] are as for
    [_startConsumerBridge], which [listen] runs on the bridge storage
    [bs], and [ep_start e] is how the endpoint's [start] settles.  The
    [clientEndpoint] setter with a non-null value only stores it. *)
Definition as_start {Endpoint} (ep_name : Endpoint -> string) (role : string) (fullAudio : bool)
    (meetingId voiceBridge : string) (transceiver : Endpoint) (consumer : nat -> Endpoint)
    (isRunning : nat -> bool) (bridge_start : Res unit) (ep_start : Endpoint -> Res string)
    (s : AudioSession Endpoint) (aw : AWorld) (bs : BridgeStore)
    : Res string * AudioSession Endpoint * AWorld * BridgeStore :=
  let '(attempt, bs) :=
    if String.eqb role "sendrecv" then
      if negb fullAudio then ((Fail (ECatalog SFU_INVALID_REQUEST), s), bs)
      else let s := set_clientEndpoint s transceiver in ((ep_start transceiver, s), bs)
    else
      let '(r, bs) := _startConsumerBridge isRunning bridge_start meetingId voiceBridge bs in
      match r with
      | Fail e => ((Fail e, s), bs)
      | Ok b => let s := set_clientEndpoint s (consumer b) in ((ep_start (consumer b), s), bs)
      end in
  match attempt with
  | (Ok answer, s) => (Ok answer, s, _trackClientEndpointEvents ep_name s aw, bs)
  | (Fail e, s) => (Fail (ECatalog (handleError e)), s, aw, bs)
  end.

(** Whether a string has no ['-']. *)
Fixpoint no_dash (s : string) : bool :=
  match s with
  | EmptyString => true
  | String c s' => negb (Ascii.eqb c "-"%char) && no_dash s'
  end.

(** A client ICE candidate for the session of [ex_start_request]. *)
Definition ex_ice_message : Message :=
  mkMessage "onIceCandidate" "c1" "u1" "m1" "vb1" "cam1" "share" "" "cand1" "".

(** A message whose [id] no handler knows. *)
Definition ex_unknown_message : Message :=
  mkMessage "bogus" "c1" "u1" "m1" "vb1" "cam1" "share" "" "" "".

(** MCS outcomes of a transceiver start whose bridge start rejects after
    [publish], and of one where every step resolves. *)
Definition ex_env_bridge_fails : StartEnv :=
  mkStartEnv true (Ok "u1") (Ok "m1") (Fail (ERaw "bridge")) (Ok "A") (Ok tt) (Ok tt).

Definition ex_env_ok : StartEnv :=
  mkStartEnv true (Ok "u1") (Ok "m1") (Ok "bm1") (Ok "A") (Ok tt) (Ok tt).

Definition ex_env_no_connection : StartEnv :=
  mkStartEnv false (Ok "u1") (Ok "m1") (Ok "bm1") (Ok "A") (Ok tt) (Ok tt).

(** A transceiver with a media id whose [start] has resolved. *)
Definition ex_started_tr : Transceiver :=
  mkTr "c1" "u1" "vb1" (Some "u1") (Some "m1") None None [] true (Some "bm1").

Definition ex_tr : Transceiver := tr_new "c1" "u1" "vb1".





(** The bridge storage after a listener of meeting [m1] whose bridge
    start rejects, then a second one whose bridge start resolves. *)
Definition ex_bs1 : BridgeStore :=
  (_startConsumerBridge (fun _ => false) (Fail (ERaw "bridge")) "m1" "vb1" (mkBridgeStore ∅ 0 [])).2.

Definition ex_bs2 : BridgeStore :=
  (_startConsumerBridge (fun _ => false) (Ok tt) "m1" "vb1" ex_bs1).2.


(* ================================================================== *)
(** * Proofs *)

(** ** Lifecycle queue *)

Lemma serial_run_app k c l1 l2 :
  serial_run k c (l1 ++ l2) =
  match serial_run k c l1 with Some c' => serial_run k c' l2 | None => None end.
Proof.
  revert c. induction l1 as [|e l1 IH]; intros c; [reflexivity|].
  destruct e as [k' t tk|k' t|k' t ok]; simpl.
  - apply IH.
  - destruct (String.eqb k k'); [destruct c|]; auto.
  - destruct (String.eqb k k'); [destruct c as [t'|]; [destruct (Nat.eqb t t')|]|]; auto.
Qed.

Lemma pushed_app k l1 l2 : pushed k (l1 ++ l2) = pushed k l1 ++ pushed k l2.
Proof.
  induction l1 as [|[k' t tk|k' t|k' t ok] l1 IH]; simpl; auto.
  destruct (String.eqb k k'); simpl; congruence.
Qed.

Lemma begun_app k l1 l2 : begun k (l1 ++ l2) = begun k l1 ++ begun k l2.
Proof.
  induction l1 as [|[k' t tk|k' t|k' t ok] l1 IH]; simpl; auto.
  destruct (String.eqb k k'); simpl; congruence.
Qed.

Lemma queue_of_insert (s : Sys) k k' q n l :
  queue_of (mkSys (<[k := q]> (sys_queues s)) n l) k' =
  if String.eqb k' k then q else queue_of s k'.
Proof.
  unfold queue_of; simpl.
  destruct (String.eqb_spec k' k) as [->|Hne].
  - by rewrite lookup_insert_eq.
  - by rewrite lookup_insert_ne.
Qed.

Definition lq_inv (s : Sys) : Prop :=
  forall k, serial_run k None (sys_log s) = Some (q_running (queue_of s k)) /\
            pushed k (sys_log s) = begun k (sys_log s) ++ q_pending (queue_of s k).

Lemma lq_inv_init : lq_inv sys_init.
Proof. intros k. split; reflexivity. Qed.

Lemma lq_inv_push s k t : lq_inv s -> lq_inv (push s k t).
Proof.
  intros Hi k'. destruct (Hi k') as [Hs Hp].
  unfold push; rewrite queue_of_insert; simpl.
  rewrite serial_run_app, pushed_app, begun_app, Hs; simpl.
  destruct (String.eqb_spec k' k) as [->|Hne]; simpl.
  - split; [reflexivity|].
    rewrite Hp, app_nil_r, <- app_assoc. reflexivity.
  - split; [reflexivity|]. rewrite !app_nil_r. exact Hp.
Qed.

Lemma lq_inv_begin s s' k : lq_inv s -> begin_task s k = Some s' -> lq_inv s'.
Proof.
  intros Hi Hb k'. unfold begin_task in Hb.
  destruct (queue_of s k) as [[r|] [|t rest]] eqn:Hq; try discriminate.
  injection Hb as <-. destruct (Hi k') as [Hs Hp].
  rewrite queue_of_insert; simpl.
  rewrite serial_run_app, pushed_app, begun_app, Hs; simpl.
  destruct (String.eqb_spec k' k) as [->|Hne]; rewrite ?Hq in Hs, Hp |- *; simpl.
  - split; [reflexivity|]. rewrite app_nil_r, Hp, <- app_assoc. reflexivity.
  - rewrite !app_nil_r. split; [reflexivity|exact Hp].
Qed.

Lemma lq_inv_end s s' k ok : lq_inv s -> end_task s k ok = Some s' -> lq_inv s'.
Proof.
  intros Hi He k'. unfold end_task in He.
  destruct (queue_of s k) as [[t|] rest] eqn:Hq; try discriminate.
  injection He as <-. destruct (Hi k') as [Hs Hp].
  rewrite queue_of_insert; simpl.
  rewrite serial_run_app, pushed_app, begun_app, Hs; simpl.
  destruct (String.eqb_spec k' k) as [->|Hne]; rewrite ?Hq in Hs, Hp |- *; simpl.
  - rewrite Nat.eqb_refl. split; [reflexivity|]. rewrite !app_nil_r, Hp. reflexivity.
  - rewrite !app_nil_r. split; [reflexivity|exact Hp].
Qed.

Lemma lq_inv_reachable s : reachable s -> lq_inv s.
Proof.
  induction 1.
  - apply lq_inv_init.
  - unfold deliver. destruct (onMessage st hok m); auto using lq_inv_push.
  - auto using lq_inv_push.
  - eauto using lq_inv_begin.
  - eauto using lq_inv_end.
Qed.

Lemma onMessage_lifecycle ws hok m :
  (hok = true \/ ws = false) -> is_lifecycle_id (msg_id m) = true ->
  exists t, onMessage ws hok m = DEnqueue (getSessionId m) t /\ task_message t = Some m.
Proof.
  intros Hh Hid. unfold onMessage.
  assert (negb hok && ws = false) as ->
    by (destruct Hh as [E|E]; subst; [reflexivity|apply andb_false_r]).
  unfold is_lifecycle_id in Hid.
  destruct (String.eqb (msg_id m) "start"); [eexists; split; reflexivity|].
  destruct (String.eqb (msg_id m) "subscriberAnswer"); [eexists; split; reflexivity|].
  destruct (String.eqb (msg_id m) "stop"); [eexists; split; reflexivity|].
  discriminate.
Qed.

Lemma onMessage_enqueue_keyed ws hok m k t :
  onMessage ws hok m = DEnqueue k t ->
  match task_message t with
  | Some m' => k = getSessionId m' /\ is_lifecycle_id (msg_id m') = true
  | None => True
  end.
Proof.
  unfold onMessage, is_lifecycle_id.
  destruct (negb hok && ws); [discriminate|].
  destruct (String.eqb_spec (msg_id m) "start") as [E|_];
    [intros [= <- <-]; simpl; rewrite E; auto|].
  destruct (String.eqb_spec (msg_id m) "subscriberAnswer") as [E|_];
    [intros [= <- <-]; simpl; rewrite E; auto|].
  destruct (String.eqb_spec (msg_id m) "stop") as [E|_];
    [intros [= <- <-]; simpl; rewrite E; auto|].
  repeat match goal with |- context [if ?b then _ else _] => destruct b end; discriminate.
Qed.

Lemma pushes_keyed_reachable s : reachable s -> pushes_keyed (sys_log s).
Proof.
  unfold pushes_keyed. induction 1.
  - constructor.
  - unfold deliver. destruct (onMessage _ _ _) eqn:Hd; auto.
    simpl. apply Forall_app; split; auto.
    constructor; [|constructor]. eapply onMessage_enqueue_keyed; eauto.
  - simpl. apply Forall_app; split; auto. repeat constructor.
  - unfold begin_task in *. destruct (queue_of s k) as [[|] [|]]; try discriminate.
    injection H0 as <-. simpl. apply Forall_app; split; auto; repeat constructor.
  - unfold end_task in *. destruct (queue_of s k) as [[|] ]; try discriminate.
    injection H0 as <-. simpl. apply Forall_app; split; auto; repeat constructor.
Qed.

(** C1: every [start], [subscriberAnswer] and [stop] message accepted by
    [_onMessage] is pushed on the lifecycle queue of its session key; in
    every reachable state, the tasks of one key start in push order, and
    a task starts only when the previous one has ended, successfully or
    not, so no two tasks of one key ever overlap. *)
Theorem lifecycle_tasks_serialized (s : Sys) (Hr : reachable s) (k : string) :
  (forall ws hok m, (hok = true \/ ws = false) -> is_lifecycle_id (msg_id m) = true ->
     exists t, onMessage ws hok m = DEnqueue (getSessionId m) t /\ task_message t = Some m)
  /\ pushes_keyed (sys_log s)
  /\ serial_run k None (sys_log s) = Some (q_running (queue_of s k))
  /\ exists rest, pushed k (sys_log s) = begun k (sys_log s) ++ rest.
Proof.
  destruct (lq_inv_reachable s Hr k) as [Hs Hp].
  split; [exact onMessage_lifecycle|].
  split; [exact (pushes_keyed_reachable s Hr)|].
  split; [exact Hs|]. eexists; exact Hp.
Qed.

(** ** ICE buffering of the transceiver *)

Lemma flushCandidatesQueue_calls w q mid :
  flushCandidatesQueue w q mid = w_calls_app w (map (CAddIceCandidate mid) q).
Proof.
  unfold flushCandidatesQueue. revert w.
  induction q as [|c q IH]; intros w; simpl.
  - destruct w; unfold w_calls_app; simpl; rewrite app_nil_r; reflexivity.
  - rewrite IH. destruct w; unfold w_calls_app, w_call; simpl.
    rewrite <- app_assoc. reflexivity.
Qed.

Lemma forwarded_app l1 l2 : forwarded (l1 ++ l2) = forwarded l1 ++ forwarded l2.
Proof. induction l1 as [|[] l1 IH]; simpl; f_equal; auto. Qed.

Lemma forwarded_map mid q : forwarded (map (CAddIceCandidate mid) q) = q.
Proof. induction q; simpl; f_equal; auto. Qed.

Lemma ice_run_fifo ops t w :
  let '(t', w') := ice_run ops t w in
  forwarded (w_calls w') ++ tr_candidatesQueue t' =
  forwarded (w_calls w) ++ tr_candidatesQueue t ++ arrivals ops.
Proof.
  revert t w. induction ops as [|op ops IH]; intros t w; simpl.
  - rewrite app_nil_r. reflexivity.
  - destruct op as [c|mid|].
    + destruct (onIceCandidate t w c) as [t1 w1] eqn:E.
      specialize (IH t1 w1). destruct (ice_run ops t1 w1) as [t' w']. rewrite IH.
      unfold onIceCandidate, _flushCandidatesQueue in E.
      destruct (tr_mediaId t) as [mid|]; [destruct (truthy (Some mid))|];
        injection E as <- <-; simpl;
        rewrite ?flushCandidatesQueue_calls; unfold w_call, w_calls_app; simpl;
        rewrite ?forwarded_app, ?forwarded_map; simpl;
        rewrite <- ?app_assoc; reflexivity.
    + exact (IH (set_mediaId t mid) w).
    + destruct (_flushCandidatesQueue t w) as [t1 w1] eqn:E.
      specialize (IH t1 w1). destruct (ice_run ops t1 w1) as [t' w']. rewrite IH.
      unfold _flushCandidatesQueue in E.
      destruct (tr_mediaId t) as [mid|]; [destruct (truthy (Some mid))|];
        injection E as <- <-; simpl; auto.
      rewrite flushCandidatesQueue_calls; unfold w_calls_app; simpl.
      rewrite forwarded_app, forwarded_map, <- app_assoc. reflexivity.
Qed.

(** C2: with no media id, [onIceCandidate] appends the candidate to the
    pending queue and calls nothing; with a media id, it forwards the
    candidate to [mcs.addIceCandidate] (after draining the queue).
    [_flushCandidatesQueue] forwards exactly the queued candidates, in
    queue order, and empties the queue in the same synchronous step.  Over
    any run of arrivals, media-id recording and flushes, the candidates
    forwarded followed by those still queued are the arrivals in order. *)
Theorem ice_queue_fifo_drain (t : Transceiver) (w : World) (c : string) :
  (truthy (tr_mediaId t) = false ->
     onIceCandidate t w c = (set_queue t (tr_candidatesQueue t ++ [c]), w))
  /\ (forall mid, tr_mediaId t = Some mid -> truthy (tr_mediaId t) = true ->
       _flushCandidatesQueue t w =
         (set_queue t [], w_calls_app w (map (CAddIceCandidate mid) (tr_candidatesQueue t)))
       /\ onIceCandidate t w c =
         (set_queue t [],
          w_calls_app w (map (CAddIceCandidate mid) (tr_candidatesQueue t)
                         ++ [CAddIceCandidate mid c])))
  /\ (forall ops, let '(t', w') := ice_run ops t w in
       forwarded (w_calls w') ++ tr_candidatesQueue t' =
       forwarded (w_calls w) ++ tr_candidatesQueue t ++ arrivals ops).
Proof.
  split; [|split].
  - unfold onIceCandidate. destruct (tr_mediaId t) as [mid|]; [|reflexivity].
    intros ->. reflexivity.
  - intros mid Hm Ht. unfold onIceCandidate, _flushCandidatesQueue.
    rewrite Hm in *. rewrite Ht, flushCandidatesQueue_calls. split; [reflexivity|].
    destruct w; unfold w_call, w_calls_app; simpl. rewrite <- !app_assoc. reflexivity.
  - intros ops. apply ice_run_fifo.
Qed.

(** ** Transceiver start *)

(** C4 (code bug): not every failure of a call [start] issues before it
    returns propagates to the caller.  With the media server up, [join],
    [publish], [bridge.start] and [consume] resolving and the first
    [mcs.connect] rejecting, [start] still resolves with the SDP answer:
    [_negotiateTransceiver] calls [mcs.connect] inside the [try] block
    that awaits and normalises its sibling calls, but does not await it. *)
Lemma start_connect_rejection_not_propagated :
  ~ (forall env sdpOffer t w,
       se_waitForConnection env = true -> some_call_fails env ->
       is_fail (start env sdpOffer t w).1.1 = true).
Proof.
  intros H.
  set (env := mkStartEnv true (Ok "u1") (Ok "m1") (Ok "b1") (Ok "A")
                         (Fail (ERaw "connect")) (Ok tt)).
  assert (Hf : some_call_fails env) by (right; left; reflexivity).
  specialize (H env "O" (tr_new "c1" "u" "vb") (mkWorld [] [] 0 []) eq_refl Hf).
  vm_compute in H. discriminate.
Qed.

(** [start] issues, in this order, [waitForConnection],
    [join], [publish], [bridge.start(mediaId)], [consume(bridgeMediaId,
    mediaId, 'AUDIO')], the two [connect]s, the [MEDIA_STATE] and
    [MEDIA_STATE_ICE] subscriptions on the media id and the flush of the
    pending candidates, then returns the answer.  If [waitForConnection]
    is false it fails with [MEDIA_SERVER_OFFLINE] and calls nothing else;
    a rejection of [join], [publish], [bridge.start] or [consume] fails
    [start] with that error normalized; the two [connect] calls are not
    awaited, so their outcome never changes what [start] does. *)
Theorem start_call_sequence (env : StartEnv) (sdpOffer : string) (t : Transceiver) (w : World) :
  (se_waitForConnection env = false ->
     start env sdpOffer t w = (Fail (ECatalog MEDIA_SERVER_OFFLINE), t, w_call w CWaitForConnection))
  /\ (se_waitForConnection env = true -> forall e, first_awaited_failure env = Some e ->
        (start env sdpOffer t w).1.1 = Fail (ECatalog (handleError e)))
  /\ (forall uid mid bmid answer,
        se_waitForConnection env = true -> se_join env = Ok uid -> se_publish env = Ok mid ->
        se_bridgeStart env = Ok bmid -> se_consume env = Ok answer -> mid <> "" ->
        let '(r, t', w') := start env sdpOffer t w in
        r = Ok answer /\ tr_mediaId t' = Some mid /\ tr_mcsUserId t' = Some uid
        /\ tr_candidatesQueue t' = []
        /\ w_calls w' = w_calls w ++
             [CWaitForConnection; CJoin (tr_voiceBridge t) (tr_userId t);
              CPublish uid (tr_voiceBridge t) sdpOffer; CBridgeStart mid;
              CConsume bmid mid "AUDIO"; CConnect mid [bmid] "AUDIO";
              CConnect bmid [mid] "AUDIO"; COnEvent MEDIA_STATE mid;
              COnEvent MEDIA_STATE_ICE mid]
             ++ map (CAddIceCandidate mid) (tr_candidatesQueue t))
  /\ (forall c_out c_in, start (with_connects env c_out c_in) sdpOffer t w = start env sdpOffer t w).
Proof.
  destruct env as [wfc join pub br cons co ci].
  unfold start, _negotiateTransceiver; simpl. split; [|split; [|split]].
  - intros ->. reflexivity.
  - intros -> e. unfold first_awaited_failure; simpl.
    destruct join; [|intros [= <-]; reflexivity].
    destruct pub; [|intros [= <-]; reflexivity].
    destruct br; [|intros [= <-]; reflexivity].
    destruct cons; [discriminate|intros [= <-]; reflexivity].
  - intros uid mid bmid answer -> -> -> -> -> Hmid. simpl.
    unfold _flushCandidatesQueue; simpl.
    assert (Ht : negb (String.eqb mid "") = true)
      by (destruct (String.eqb_spec mid ""); [contradiction|reflexivity]).
    rewrite Ht, flushCandidatesQueue_calls. simpl.
    repeat split. unfold w_calls_app, w_call; simpl. rewrite <- !app_assoc. reflexivity.
  - intros c_out c_in. reflexivity.
Qed.

(** ** Media watchdogs *)

Definition one_pending (k : TimerKind) (h : option nat) (w : World) : Prop :=
  pending k w = [] \/ exists x, h = Some x /\ pending k w = [x].

Definition below (n : nat) (h : option nat) : Prop :=
  match h with Some x => x < n | None => True end.

Definition wd_inv (t : Transceiver) (w : World) : Prop :=
  one_pending MediaFlowTimer (tr_mediaFlowingTimeout t) w /\
  one_pending MediaStateTimer (tr_mediaStateTimeout t) w /\
  Forall (fun p => p.1 < w_next_timer w) (w_timers w) /\
  below (w_next_timer w) (tr_mediaFlowingTimeout t) /\
  below (w_next_timer w) (tr_mediaStateTimeout t) /\
  (forall x y, tr_mediaFlowingTimeout t = Some x -> tr_mediaStateTimeout t = Some y -> x <> y).

Lemma pending_clear k w h :
  pending k (w_clearTimeout w h) = List.filter (fun x => negb (Nat.eqb x h)) (pending k w).
Proof.
  unfold pending, w_clearTimeout; simpl. induction (w_timers w) as [|[x k'] l IH]; [reflexivity|].
  simpl. destruct (Nat.eqb x h) eqn:E; simpl;
    destruct k', k; simpl; rewrite ?E; simpl; rewrite ?IH; reflexivity.
Qed.

Lemma pending_send k w f : pending k (w_send w f) = pending k w.
Proof. reflexivity. Qed.

Lemma pending_call k w c : pending k (w_call w c) = pending k w.
Proof. reflexivity. Qed.


Lemma one_pending_clear k h w y :
  one_pending k h w -> h <> Some y -> one_pending k h (w_clearTimeout w y).
Proof.
  unfold one_pending. rewrite pending_clear.
  intros [->|[x [-> ->]]] Hne; [left; reflexivity|].
  right. exists x. split; [reflexivity|]. simpl.
  destruct (Nat.eqb_spec x y); [congruence|reflexivity].
Qed.



Lemma Forall_below_clear w y :
  Forall (fun p => p.1 < w_next_timer w) (w_timers w) ->
  Forall (fun p => p.1 < w_next_timer (w_clearTimeout w y)) (w_timers (w_clearTimeout w y)).
Proof.
  simpl. induction 1 as [|p l Hp Hl IH]; simpl; [constructor|].
  destruct (negb _); [constructor|]; assumption.
Qed.

Ltac wd_simpl :=
  unfold wd_inv, one_pending, below in *; simpl in *;
  rewrite ?pending_send, ?pending_call in *.



Lemma wd_inv_fields t w q b :
  wd_inv t w -> wd_inv (set_bridge (set_queue t q) b) w /\ wd_inv (set_queue t q) w
                /\ wd_inv (set_bridge t b) w.
Proof. intros H. repeat split; apply H. Qed.

Lemma wd_inv_clear_any t w y :
  wd_inv t w -> (forall x, tr_mediaFlowingTimeout t = Some x -> x <> y) ->
  (forall x, tr_mediaStateTimeout t = Some x -> x <> y) -> wd_inv t (w_clearTimeout w y).
Proof.
  intros (Hf & Hs & Hb & Hbf & Hbs & Hd) Hny1 Hny2.
  repeat split; auto using Forall_below_clear.
  - apply one_pending_clear; [exact Hf|]. intros E. exact (Hny1 y E eq_refl).
  - apply one_pending_clear; [exact Hs|]. intros E. exact (Hny2 y E eq_refl).
Qed.



















(** ** Audio session stop *)

Lemma removeListener_idem l aw : removeListener l (removeListener l aw) = removeListener l aw.
Proof.
  destruct aw as [ls w]. unfold removeListener; simpl. f_equal.
  induction ls as [|l' ls IH]; simpl; [reflexivity|].
  destruct (listener_eqb l l') eqn:E; simpl; rewrite ?E; simpl; [exact IH|f_equal; exact IH].
Qed.

Lemma listener_eqb_spec a b : listener_eqb a b = true <-> a = b.
Proof.
  destruct a, b; simpl; split; try discriminate; try (intros [=]; fail);
    rewrite ?andb_true_iff, ?String.eqb_eq; intuition congruence.
Qed.

Lemma removeListener_absent l aw :
  ~ In l (aw_listeners aw) -> removeListener l aw = aw.
Proof.
  destruct aw as [ls w]. unfold removeListener; simpl. intros Hn. f_equal.
  induction ls as [|l' ls IH]; simpl; [reflexivity|].
  simpl in Hn. destruct (listener_eqb l l') eqn:E.
  - apply listener_eqb_spec in E. subst. exfalso. apply Hn. left. reflexivity.
  - simpl. f_equal. apply IH. intuition.
Qed.

Lemma removeListener_gone l aw : ~ In l (aw_listeners (removeListener l aw)).
Proof.
  destruct aw as [ls w]. unfold removeListener; simpl. intros Hin.
  apply filter_In in Hin as [_ Hb].
  assert (listener_eqb l l = true) as E by (apply listener_eqb_spec; reflexivity).
  rewrite E in Hb. discriminate.
Qed.

Lemma removeListener_keeps_absent l l' aw :
  ~ In l (aw_listeners aw) -> ~ In l (aw_listeners (removeListener l' aw)).
Proof.
  destruct aw as [ls w]. unfold removeListener; simpl. intros Hn Hin.
  apply filter_In in Hin as [Hin _]. exact (Hn Hin).
Qed.

Lemma aw_map_world_keeps_absent l f aw :
  ~ In l (aw_listeners aw) -> ~ In l (aw_listeners (aw_map_world f aw)).
Proof. exact id. Qed.

Ltac absent_tac :=
  repeat first [ apply removeListener_gone
               | apply removeListener_keeps_absent
               | apply aw_map_world_keeps_absent ].

(** C7: for any endpoint variant, [stop] run twice in a row leaves the
    session and the world (listeners, MCS calls, timers and client
    frames) exactly as one [stop] does; the first [stop] runs the
    endpoint's [stop] once and empties the endpoint slot. *)
Theorem audio_session_stop_idempotent (Endpoint : Type)
    (ep_name : Endpoint -> string) (ep_world_stop : Endpoint -> World -> World)
    (s : AudioSession Endpoint) (aw : AWorld) :
  let '(s1, aw1) := as_stop ep_name ep_world_stop s aw in
  as_stop ep_name ep_world_stop s1 aw1 = (s1, aw1)
  /\ as_clientEndpoint s1 = None
  /\ (forall e, as_clientEndpoint s = Some e ->
        aw_world aw1 = ep_world_stop e (aw_world aw)).
Proof.
  destruct s as [sid uid cid [e|]];
    unfold as_stop, clientEndpoint_set_null, _clearClientEndpointEvents; simpl.
  - split; [|split; [reflexivity|intros e' [= <-]; reflexivity]].
    unfold ep_detach, ep_stop.
    rewrite (removeListener_absent (LUserLeft uid sid)); [|absent_tac].
    rewrite (removeListener_absent (LSessionMcsDisconnected sid)); [reflexivity|absent_tac].
  - split; [|split; [reflexivity|discriminate]].
    set (l1 := LUserLeft uid sid). set (l2 := LSessionMcsDisconnected sid).
    rewrite (removeListener_absent l1).
    + rewrite (removeListener_absent l2); [reflexivity|apply removeListener_gone].
    + apply removeListener_keeps_absent, removeListener_gone.
Qed.

(** ** Video session table *)

Lemma assoc_get_set_ne l k k' v : k' <> k -> assoc_get (assoc_set l k v) k' = assoc_get l k'.
Proof.
  intros Hne. induction l as [|[k1 v1] l IH]; simpl.
  - destruct (String.eqb_spec k' k); [contradiction|reflexivity].
  - destruct (String.eqb_spec k k1) as [<-|]; simpl.
    + destruct (String.eqb_spec k' k); [contradiction|reflexivity].
    + destruct (String.eqb k' k1); [reflexivity|exact IH].
Qed.

Lemma assoc_get_set_eq l k v : assoc_get (assoc_set l k v) k = Some v.
Proof.
  induction l as [|[k1 v1] l IH]; simpl; [rewrite String.eqb_refl; reflexivity|].
  destruct (String.eqb_spec k k1) as [<-|Hne]; simpl; [rewrite String.eqb_refl; reflexivity|].
  destruct (String.eqb_spec k k1); [contradiction|exact IH].
Qed.

Lemma assoc_get_delete_ne l k k' : k' <> k -> assoc_get (assoc_delete l k) k' = assoc_get l k'.
Proof.
  intros Hne. unfold assoc_delete. induction l as [|[k1 v1] l IH]; simpl; [reflexivity|].
  destruct (String.eqb_spec k k1) as [<-|]; simpl.
  - destruct (String.eqb_spec k' k); [contradiction|exact IH].
  - destruct (String.eqb k' k1); [reflexivity|exact IH].
Qed.

Lemma assoc_get_none l k : assoc_get l k = None -> ~ In k (map fst l).
Proof.
  induction l as [|[k1 v1] l IH]; simpl; [auto|].
  destruct (String.eqb_spec k k1); [discriminate|]. intros H [E|Hin]; [congruence|].
  exact (IH H Hin).
Qed.

Lemma assoc_delete_absent l k : ~ In k (map fst (assoc_delete l k)).
Proof.
  unfold assoc_delete. induction l as [|[k1 v1] l IH]; simpl; [auto|].
  destruct (String.eqb_spec k k1); simpl; [exact IH|]. intros [E|Hin]; [congruence|].
  exact (IH Hin).
Qed.

Lemma assoc_delete_nodup l k : NoDup (map fst l) -> NoDup (map fst (assoc_delete l k)).
Proof.
  unfold assoc_delete. induction l as [|[k1 v1] l IH]; simpl; [auto|].
  intros Hnd. apply NoDup_cons in Hnd as [Hn Hnd].
  destruct (String.eqb k k1); simpl; [auto|].
  apply NoDup_cons. split; [|auto].
  intros Hin. apply Hn. apply list_elem_of_In in Hin. apply list_elem_of_In.
  apply in_map_iff in Hin as [[x y] [Hx Hin]]. apply filter_In in Hin as [Hin _].
  apply in_map_iff. exists (x, y). auto.
Qed.

Lemma assoc_set_absent l k v :
  ~ In k (map fst l) -> assoc_set l k v = l ++ [(k, v)].
Proof.
  induction l as [|[k1 v1] l IH]; simpl; [reflexivity|].
  intros Hn. destruct (String.eqb_spec k k1); [exfalso; apply Hn; left; congruence|].
  f_equal. apply IH. auto.
Qed.

Lemma assoc_set_absent_nodup l k v :
  ~ In k (map fst l) -> NoDup (map fst l) ->
  NoDup (map fst (assoc_set l k v)) /\
  List.filter (fun p => String.eqb k p.1) (assoc_set l k v) = [(k, v)].
Proof.
  intros Hn Hnd. rewrite assoc_set_absent by exact Hn. split.
  - rewrite map_app. simpl. apply NoDup_app. split; [exact Hnd|]. split.
    + intros x Hx Hx'. apply list_elem_of_singleton in Hx'. subst.
      apply Hn, list_elem_of_In, Hx.
    + apply NoDup_singleton.
  - rewrite List.filter_app. simpl. rewrite String.eqb_refl.
    assert (List.filter (fun p => String.eqb k p.1) l = []) as ->; [|reflexivity].
    induction l as [|[k1 v1] l IH]; simpl; [reflexivity|].
    destruct (String.eqb_spec k k1); [exfalso; apply Hn; simpl; left; congruence|].
    apply IH; [intros Hin; apply Hn; right; exact Hin|].
    simpl in Hnd. apply NoDup_cons in Hnd. tauto.
Qed.

Lemma fetchIceQueue_keeps st k :
  vs_sessions (_fetchIceQueue st k).2 = vs_sessions st /\
  vs_log (_fetchIceQueue st k).2 = vs_log st /\
  vs_next_obj (_fetchIceQueue st k).2 = vs_next_obj st /\
  vs_frames (_fetchIceQueue st k).2 = vs_frames st /\
  vs_errors (_fetchIceQueue st k).2 = vs_errors st.
Proof. unfold _fetchIceQueue. destruct (vs_iceQueues st !! k); repeat split. Qed.

Lemma flushIceQueue_keeps st k v q b :
  vs_sessions (_flushIceQueue st k v q b) = vs_sessions st /\
  exists rest, vs_log (_flushIceQueue st k v q b) = vs_log st ++ rest.
Proof.
  unfold _flushIceQueue.
  assert (H : forall st0, vs_sessions (fold_left (fun st c => vs_log_ev st (VVideoIceCandidate (v_obj v) c)) q st0)
                = vs_sessions st0 /\
              exists rest, vs_log (fold_left (fun st c => vs_log_ev st (VVideoIceCandidate (v_obj v) c)) q st0)
                = vs_log st0 ++ rest).
  { induction q as [|c q IH]; intros st0; simpl.
    - split; [reflexivity|exists []; rewrite app_nil_r; reflexivity].
    - destruct (IH (vs_log_ev st0 (VVideoIceCandidate (v_obj v) c))) as [H1 [rest H2]].
      split; [exact H1|]. exists (VVideoIceCandidate (v_obj v) c :: rest).
      rewrite H2. simpl. rewrite <- app_assoc. reflexivity. }
  destruct (H st) as [H1 H2]. destruct b; simpl; auto.
Qed.

Lemma closed_state_next req st : vs_next_obj (closed_state req st) = vs_next_obj st.
Proof.
  unfold closed_state. destruct (fetchIceQueue_keeps st (getSessionId req)) as (_ & _ & Hn & _).
  destruct (getSession st _); [|exact Hn].
  unfold _closeSession. destruct (getSession _ _); exact Hn.
Qed.

Lemma handleStart_granted env req st :
  _getPermission env req = None ->
  match ve_videoStart env with
  | Fail e => handleStart env req st = report_error (stored_state req st) req e
  | Ok _ => vs_sessions (handleStart env req st) = vs_sessions (stored_state req st) /\
            exists rest, vs_log (handleStart env req st) = vs_log (stored_state req st) ++ rest
  end.
Proof.
  intros Hp. unfold handleStart, stored_state, closed_state, new_video. rewrite Hp.
  destruct (_fetchIceQueue st (getSessionId req)) as [q st1]. simpl.
  destruct (ve_videoStart env) as [ans|e]; [|reflexivity].
  match goal with |- context [_flushIceQueue ?a ?b ?c ?d ?f] =>
    destruct (flushIceQueue_keeps a b c d f) as [H1 [rest H2]] end.
  split; [exact H1|]. exists (rest ++ []). simpl. rewrite H2, app_nil_r. reflexivity.
Qed.

Lemma closed_state_sessions req st :
  vs_sessions (closed_state req st) =
  match getSession st (getSessionId req) with
  | Some _ => assoc_delete (vs_sessions st) (getSessionId req)
  | None => vs_sessions st
  end.
Proof.
  unfold closed_state. destruct (fetchIceQueue_keeps st (getSessionId req)) as (Hs & _).
  destruct (getSession st (getSessionId req)) eqn:Eg; [|exact Hs].
  unfold _closeSession, getSession. rewrite Hs. fold (getSession st (getSessionId req)).
  rewrite Eg. simpl. reflexivity.
Qed.

Lemma closed_state_log req st :
  vs_log (closed_state req st) =
  match getSession st (getSessionId req) with
  | Some old => vs_log st ++ [VStopSession (getSessionId req) (v_obj old)]
  | None => vs_log st
  end.
Proof.
  unfold closed_state. destruct (fetchIceQueue_keeps st (getSessionId req)) as (Hs & Hl & _).
  destruct (getSession st (getSessionId req)) eqn:Eg; [|exact Hl].
  unfold _closeSession, getSession. rewrite Hs. fold (getSession st (getSessionId req)).
  rewrite Eg. simpl. rewrite Hl. reflexivity.
Qed.

Lemma closed_state_absent req st :
  ~ In (getSessionId req) (map fst (vs_sessions (closed_state req st))).
Proof.
  rewrite closed_state_sessions. destruct (getSession st (getSessionId req)) eqn:Eg.
  - apply assoc_delete_absent.
  - apply assoc_get_none. exact Eg.
Qed.

Lemma closed_state_get_ne req st k :
  k <> getSessionId req ->
  assoc_get (vs_sessions (closed_state req st)) k = assoc_get (vs_sessions st) k.
Proof.
  intros Hne. rewrite closed_state_sessions. destruct (getSession st _); [|reflexivity].
  apply assoc_get_delete_ne. exact Hne.
Qed.

Lemma stored_state_sessions req st :
  vs_sessions (stored_state req st) =
  assoc_set (vs_sessions (closed_state req st)) (getSessionId req)
            (new_video req (closed_state req st)).
Proof. reflexivity. Qed.

Lemma stored_state_log req st :
  vs_log (stored_state req st) =
  vs_log (closed_state req st) ++
    [VNewVideo (vs_next_obj st) (getSessionId req);
     VVideoStart (vs_next_obj st) (msg_sdpOffer req)].
Proof.
  unfold stored_state. simpl. rewrite closed_state_next, <- app_assoc. reflexivity.
Qed.

Lemma handleStart_granted_sessions env req st :
  _getPermission env req = None ->
  vs_sessions (handleStart env req st) = vs_sessions (stored_state req st) /\
  exists rest, vs_log (handleStart env req st) = vs_log (stored_state req st) ++ rest.
Proof.
  intros Hp. pose proof (handleStart_granted env req st Hp) as H.
  destruct (ve_videoStart env).
  - exact H.
  - rewrite H. split; [reflexivity|]. exists []. rewrite app_nil_r. reflexivity.
Qed.

Lemma assoc_get_not_in l k : ~ In k (map fst l) -> assoc_get l k = None.
Proof.
  induction l as [|[k1 v1] l IH]; simpl; [reflexivity|].
  intros Hn. destruct (String.eqb_spec k k1); [exfalso; apply Hn; left; congruence|].
  apply IH. intros Hin. apply Hn. right. exact Hin.
Qed.

Lemma closed_state_nodup req st :
  NoDup (map fst (vs_sessions st)) -> NoDup (map fst (vs_sessions (closed_state req st))).
Proof.
  intros Hnd. rewrite closed_state_sessions. destruct (getSession st _); [|exact Hnd].
  apply assoc_delete_nodup. exact Hnd.
Qed.

(** C3: a [start] whose permission is granted first closes the session
    stored under its key, if any, and only then builds and stores the new
    [Video]: once the old session is closed the key has no entry, the
    table keeps at most one entry per key, and after the restart the key
    holds exactly the new session while every other key is untouched;
    the stop of the old session is logged before the new [Video] is
    built.  This holds whether [video.start] then resolves or rejects. *)
Theorem handleStart_replaces_stale env req st
  (Hnd : NoDup (map fst (vs_sessions st))) (Hp : _getPermission env req = None) :
  let sid := getSessionId req in
  let v := mkVideo (vs_next_obj st) sid (msg_connectionId req) (msg_cameraId req)
                   (msg_role req) MEDIA_STARTING in
  let st' := handleStart env req st in
  assoc_get (vs_sessions (closed_state req st)) sid = None /\
  NoDup (map fst (vs_sessions st')) /\
  List.filter (fun p => String.eqb sid p.1) (vs_sessions st') = [(sid, v)] /\
  getSession st' sid = Some v /\
  (forall k, k <> sid -> getSession st' k = getSession st k) /\
  (forall old, getSession st sid = Some old ->
     exists rest, vs_log st' = vs_log st ++ VStopSession sid (v_obj old)
                                         :: VNewVideo (vs_next_obj st) sid :: rest) /\
  (getSession st sid = None ->
     exists rest, vs_log st' = vs_log st ++ VNewVideo (vs_next_obj st) sid :: rest).
Proof.
  intros sid v st'.
  destruct (handleStart_granted_sessions env req st Hp) as [Hs [rest Hl]].
  fold st' in Hs, Hl.
  pose proof (closed_state_absent req st) as Habs.
  pose proof (closed_state_nodup req st Hnd) as Hnd2.
  destruct (assoc_set_absent_nodup _ _ (new_video req (closed_state req st)) Habs Hnd2)
    as [Hnd3 Hf].
  assert (Hv : new_video req (closed_state req st) = v).
  { unfold new_video, v. rewrite closed_state_next. reflexivity. }
  rewrite Hv in Hnd3, Hf.
  unfold getSession. rewrite Hs, stored_state_sessions, Hv.
  refine (conj _ (conj Hnd3 (conj Hf (conj _ (conj _ (conj _ _)))))).
  - apply assoc_get_not_in. exact Habs.
  - apply assoc_get_set_eq.
  - intros k Hk. rewrite assoc_get_set_ne by exact Hk. apply closed_state_get_ne. exact Hk.
  - intros old Hold. rewrite Hl, stored_state_log, closed_state_log. fold sid. unfold getSession. rewrite Hold.
    exists (VVideoStart (vs_next_obj st) (msg_sdpOffer req) :: rest).
    rewrite <- !app_assoc. reflexivity.
  - intros Hnone. rewrite Hl, stored_state_log, closed_state_log. fold sid. unfold getSession. rewrite Hnone.
    exists (VVideoStart (vs_next_obj st) (msg_sdpOffer req) :: rest).
    rewrite <- !app_assoc. reflexivity.
Qed.

(** C6: a [start] whose permission query rejects with [e] (a role other
    than [share] and [viewer] rejects with [SFU_INVALID_REQUEST]) ends in
    the error path and nothing else: exactly one error frame carrying the
    normalized code of [e], one error metric labelled [start] and that
    code, and the session table, the ICE queues and the [Video] log as
    they were. *)
Theorem handleStart_permission_denied env req st e
  (Hid : msg_id req = "start"%string) (Hp : _getPermission env req = Some e) :
  let st' := handleStart env req st in
  vs_frames st' = vs_frames st ++
    [FVideoError (msg_connectionId req) (msg_cameraId req) (msg_role req) (handleError e)] /\
  vs_errors st' = vs_errors st ++ [("start"%string, handleError e)] /\
  vs_sessions st' = vs_sessions st /\
  vs_iceQueues st' = vs_iceQueues st /\
  vs_log st' = vs_log st /\
  (forall c, e = ECatalog c -> handleError e = c) /\
  (msg_role req <> "share"%string -> msg_role req <> "viewer"%string ->
     e = ECatalog SFU_INVALID_REQUEST).
Proof.
  intros st'. unfold st', handleStart. rewrite Hp. simpl. rewrite Hid.
  refine (conj eq_refl (conj eq_refl (conj eq_refl (conj eq_refl (conj eq_refl (conj _ _)))))).
  - intros c ->. reflexivity.
  - intros Hs Hv. unfold _getPermission in Hp.
    destruct (String.eqb_spec (msg_role req) "share"); [contradiction|].
    destruct (String.eqb_spec (msg_role req) "viewer"); [contradiction|].
    congruence.
Qed.

(** C10: when the permission is granted but [video.start] rejects with
    [e], [handleStart] reports the error (one error frame, one error
    metric) and the new [Video], stored before the [await], stays in the
    session table under the request's key. *)
Theorem handleStart_start_failure_keeps_session env req st e
  (Hp : _getPermission env req = None) (Hs : ve_videoStart env = Fail e) :
  let sid := getSessionId req in
  let v := mkVideo (vs_next_obj st) sid (msg_connectionId req) (msg_cameraId req)
                   (msg_role req) MEDIA_STARTING in
  let st' := handleStart env req st in
  handleStart env req st = report_error (stored_state req st) req e /\
  getSession (stored_state req st) sid = Some v /\
  getSession st' sid = Some v /\
  vs_frames st' = vs_frames st ++
    [FVideoError (msg_connectionId req) (msg_cameraId req) (msg_role req) (handleError e)] /\
  vs_errors st' = vs_errors st ++ [(msg_id req, handleError e)].
Proof.
  intros sid v st'.
  pose proof (handleStart_granted env req st Hp) as H. rewrite Hs in H.
  assert (Hv : new_video req (closed_state req st) = v).
  { unfold new_video, v. rewrite closed_state_next. reflexivity. }
  assert (Hg : getSession (stored_state req st) sid = Some v).
  { unfold getSession. rewrite stored_state_sessions, Hv. apply assoc_get_set_eq. }
  assert (Hf : vs_frames (stored_state req st) = vs_frames st /\
               vs_errors (stored_state req st) = vs_errors st).
  { unfold stored_state, closed_state. simpl.
    destruct (fetchIceQueue_keeps st (getSessionId req)) as (_ & _ & _ & Hfr & Her).
    destruct (getSession st (getSessionId req)); [|split; assumption].
    unfold _closeSession. destruct (getSession (_fetchIceQueue st (getSessionId req)).2 (getSessionId req)); cbn [vs_frames vs_errors vs_with_ice vs_with_sessions vs_log_ev]; split; assumption. }
  destruct Hf as [Hfr Her].
  unfold st'. rewrite H.
  refine (conj eq_refl (conj Hg (conj Hg (conj _ _)))); unfold report_error; cbn [vs_frames vs_errors]; rewrite ?Hfr, ?Her; reflexivity.
Qed.

(* ------------------------------------------------------------------ *)
(** ** Readiness of a [Video] *)

Lemma MEDIA_STOPPED_STOPPING : MEDIA_STOPPED <> MEDIA_STOPPING.
Proof. unfold MEDIA_STOPPED, MEDIA_STOPPING. intros H. inversion H. Qed.

(** C8: the source's readiness test is true of every [Video], whatever
    its status, since no status equals both [STOPPED] and [STOPPING];
    so [handleIceCandidate] forwards a candidate to a stored [Video] in
    [STOPPED] or [STOPPING] instead of queueing it, where the readiness
    "status in {STARTING, STARTED}" is false. *)
Theorem isVideoInstanceReady_ignores_status :
  (forall v, isVideoInstanceReady (JsVideo v) = true) /\
  (forall v, v_status v = MEDIA_STOPPED \/ v_status v = MEDIA_STOPPING ->
     spec_isVideoInstanceReady (JsVideo v) = false) /\
  (forall m st v, getSession st (getSessionId m) = Some v ->
     vs_log (handleIceCandidate m st) = vs_log st ++ [VVideoIceCandidate (v_obj v) (msg_candidate m)] /\
     vs_iceQueues (handleIceCandidate m st) = vs_iceQueues (_fetchIceQueue st (getSessionId m)).2) /\
  (let m := mkMessage "iceCandidate" "c1" "u1" "m1" "vb" "cam" "share" "" "cand" "" in
   let v := mkVideo 0 (getSessionId m) "c1" "cam" "share" MEDIA_STOPPED in
   let st := mkVState [(getSessionId m, v)] ∅ [] [] [] 1 in
   spec_isVideoInstanceReady (JsVideo v) = false /\
   vs_log (handleIceCandidate m st) = [VVideoIceCandidate 0 "cand"] /\
   vs_iceQueues (handleIceCandidate m st) !! getSessionId m = Some []).
Proof.
  assert (Hready : forall v, isVideoInstanceReady (JsVideo v) = true).
  { intros v. simpl. destruct (String.eqb_spec (v_status v) MEDIA_STOPPED) as [E|]; [|reflexivity].
    rewrite E. destruct (String.eqb_spec MEDIA_STOPPED MEDIA_STOPPING) as [E'|]; [|reflexivity].
    exfalso. exact (MEDIA_STOPPED_STOPPING E'). }
  refine (conj Hready (conj _ (conj _ _))).
  - intros v [E|E]; simpl; rewrite E; reflexivity.
  - intros m st v Hg. unfold handleIceCandidate. rewrite Hg.
    destruct (fetchIceQueue_keeps st (getSessionId m)) as (_ & Hl & _).
    destruct (_fetchIceQueue st (getSessionId m)) as [q st1]. simpl in Hl.
    rewrite Hready. simpl. rewrite Hl. split; reflexivity.
  - vm_compute. split; [reflexivity|split; reflexivity].
Qed.

(* ------------------------------------------------------------------ *)
(** ** External webcam sources *)

Lemma match_v_prefix_first_char userId :
  match_v_prefix userId <> None <->
  exists c t, userId = String c t /\ (c = "v"%char \/ c = "V"%char).
Proof.
  destruct userId as [|c t]; simpl.
  - split; [intros H; contradiction|intros (c & t & E & _); discriminate].
  - unfold ascii_ieqb. split.
    + intros H. exists c, t. split; [reflexivity|].
      destruct (Ascii.eqb_spec c "v"%char); [left; assumption|].
      destruct (Ascii.eqb_spec c (Ascii.ascii_of_nat (Ascii.nat_of_ascii "v"%char - 32)));
        [|simpl in H; contradiction].
      right. rewrite e. reflexivity.
    + intros (c' & t' & E & Hc). injection E as -> ->.
      destruct Hc as [-> | ->]; vm_compute; discriminate.
Qed.

(** C9: the handler registers a source exactly when [userId] starts with
    [v] or [V] (the pattern [^v_*] with the [i] flag), not exactly when it
    starts with [v_]: for [userId = "video1"] the table gains two entries
    where the prefix [v_] would leave it unchanged.  When it registers, the
    name stored under the stream and under the user id is the stream with
    every [|SIP] removed, in any case and at any position, which differs
    from stripping a [|SIP] suffix on [a|SIPb]. *)
Theorem webcam_sources_prefix_is_v :
  (forall userId, match_v_prefix userId <> None <->
     exists c t, userId = String c t /\ (c = "v"%char \/ c = "V"%char)) /\
  (forall stream userId src,
     match_v_prefix userId <> None ->
     onUserCamBroadcastStarted stream userId src =
       <[userId := strip_sip stream]> (<[stream := strip_sip stream]> src)) /\
  (forall stream userId src,
     match_v_prefix userId = None -> onUserCamBroadcastStarted stream userId src = src) /\
  spec_has_prefix_v_ "video1" = false /\
  onUserCamBroadcastStarted "cam1" "video1" ∅ !! "video1"%string = Some "cam1"%string /\
  spec_onUserCamBroadcastStarted "cam1" "video1" ∅ !! "video1"%string = None /\
  onUserCamBroadcastStarted "V1" "Vuser" ∅ !! "Vuser"%string = Some "V1"%string /\
  strip_sip "a|SIPb" = "ab"%string /\
  spec_strip_sip_suffix "a|SIPb" = "a|SIPb"%string /\
  strip_sip "cam|sip" = "cam"%string /\
  spec_strip_sip_suffix "cam|sip" = "cam|sip"%string.
Proof.
  refine (conj match_v_prefix_first_char (conj _ (conj _ _))).
  - intros stream userId src H. unfold onUserCamBroadcastStarted, setSource.
    destruct (match_v_prefix userId); [reflexivity|contradiction].
  - intros stream userId src H. unfold onUserCamBroadcastStarted. rewrite H. reflexivity.
  - vm_compute. repeat split.
Qed.

(* ------------------------------------------------------------------ *)
(** ** Instances of the hypotheses *)

Lemma lifecycle_tasks_serialized_witness :
  reachable (deliver false true ex_start_request sys_init) /\
  serial_run (getSessionId ex_start_request) None
             (sys_log (deliver false true ex_start_request sys_init))
  = Some (q_running (queue_of (deliver false true ex_start_request sys_init)
                              (getSessionId ex_start_request))).
Proof.
  assert (Hr : reachable (deliver false true ex_start_request sys_init))
    by (apply reach_deliver; apply reach_init).
  split; [exact Hr|].
  exact (proj1 (proj2 (proj2 (lifecycle_tasks_serialized _ Hr (getSessionId ex_start_request))))).
Defined.


Lemma handleStart_replaces_stale_witness :
  NoDup (map fst (vs_sessions ex_state_with_session)) /\
  _getPermission (mkVStartEnv None None (Ok "answer")) ex_start_request = None /\
  getSession (handleStart (mkVStartEnv None None (Ok "answer")) ex_start_request
                          ex_state_with_session) (getSessionId ex_start_request)
  = Some (mkVideo 1 (getSessionId ex_start_request) "c1" "cam1" "share" MEDIA_STARTING).
Proof.
  assert (Hnd : NoDup (map fst (vs_sessions ex_state_with_session)))
    by (simpl; apply NoDup_singleton).
  assert (Hp : _getPermission (mkVStartEnv None None (Ok "answer")) ex_start_request = None)
    by reflexivity.
  refine (conj Hnd (conj Hp _)).
  exact (proj1 (proj2 (proj2 (proj2 (handleStart_replaces_stale _ _ _ Hnd Hp))))).
Defined.

Lemma handleStart_permission_denied_witness :
  msg_id ex_start_request = "start"%string /\
  _getPermission (mkVStartEnv (Some (ECatalog PERMISSION_DENIED)) None (Ok "answer"))
                 ex_start_request = Some (ECatalog PERMISSION_DENIED) /\
  vs_sessions (handleStart (mkVStartEnv (Some (ECatalog PERMISSION_DENIED)) None (Ok "answer"))
                           ex_start_request ex_state_with_session)
  = vs_sessions ex_state_with_session.
Proof.
  assert (Hid : msg_id ex_start_request = "start"%string) by reflexivity.
  assert (Hp : _getPermission (mkVStartEnv (Some (ECatalog PERMISSION_DENIED)) None (Ok "answer"))
                 ex_start_request = Some (ECatalog PERMISSION_DENIED)) by reflexivity.
  refine (conj Hid (conj Hp _)).
  exact (proj1 (proj2 (proj2 (handleStart_permission_denied _ _ ex_state_with_session _ Hid Hp)))).
Defined.

Lemma handleStart_start_failure_keeps_session_witness :
  _getPermission (mkVStartEnv None None (Fail (ERaw "negotiation"))) ex_start_request = None /\
  ve_videoStart (mkVStartEnv None None (Fail (ERaw "negotiation"))) = Fail (ERaw "negotiation") /\
  getSession (handleStart (mkVStartEnv None None (Fail (ERaw "negotiation"))) ex_start_request
                          ex_empty_state) (getSessionId ex_start_request)
  = Some (mkVideo 0 (getSessionId ex_start_request) "c1" "cam1" "share" MEDIA_STARTING).
Proof.
  assert (Hp : _getPermission (mkVStartEnv None None (Fail (ERaw "negotiation")))
                 ex_start_request = None) by reflexivity.
  assert (Hs : ve_videoStart (mkVStartEnv None None (Fail (ERaw "negotiation")))
               = Fail (ERaw "negotiation")) by reflexivity.
  refine (conj Hp (conj Hs _)).
  exact (proj1 (proj2 (proj2 (handleStart_start_failure_keeps_session _ _ ex_empty_state _ Hp Hs)))).
Defined.

(* ------------------------------------------------------------------ *)
(** ** Session keys *)

Lemma no_dash_app a b : no_dash (a ++ b)%string = no_dash a && no_dash b.
Proof. induction a as [|c a IH]; simpl; [reflexivity|]. rewrite IH, andb_assoc. reflexivity. Qed.

Lemma dash_split_prefix u1 u2 r1 r2 :
  no_dash u1 = true -> no_dash u2 = true ->
  (u1 ++ String "-" r1 = u2 ++ String "-" r2)%string -> u1 = u2 /\ r1 = r2.
Proof.
  revert u2. induction u1 as [|c u1 IH]; intros [|c' u2] H1 H2 E; simpl in *.
  - injection E as ->. split; reflexivity.
  - injection E as <- _. discriminate.
  - injection E as -> _. discriminate.
  - injection E as <- E. apply andb_prop in H1 as [_ H1]. apply andb_prop in H2 as [_ H2].
    destruct (IH u2 H1 H2 E) as [-> ->]. split; reflexivity.
Qed.

Lemma dash_split_suffix c1 c2 r1 r2 :
  no_dash r1 = true -> no_dash r2 = true ->
  (c1 ++ String "-" r1 = c2 ++ String "-" r2)%string -> c1 = c2 /\ r1 = r2.
Proof.
  revert c2. induction c1 as [|x c1 IH]; intros [|y c2] H1 H2 E; simpl in *.
  - injection E as ->. split; reflexivity.
  - injection E as <- E. subst r1. rewrite no_dash_app in H1. simpl in H1.
    rewrite andb_false_r in H1. discriminate.
  - injection E as -> E. subst r2. rewrite no_dash_app in H2. simpl in H2.
    rewrite andb_false_r in H2. discriminate.
  - injection E as <- E. destruct (IH c2 H1 H2 E) as [-> ->]. split; reflexivity.
Qed.

(** [getSessionId] tells requests apart by user, camera and role when
    neither the user id nor the role has a ['-']; a ['-'] in the user id
    lets two different (user, camera) pairs share a key. *)
Theorem getSessionId_injective :
  (forall m1 m2,
     no_dash (msg_userId m1) = true -> no_dash (msg_userId m2) = true ->
     no_dash (msg_role m1) = true -> no_dash (msg_role m2) = true ->
     getSessionId m1 = getSessionId m2 ->
     msg_userId m1 = msg_userId m2 /\ msg_cameraId m1 = msg_cameraId m2 /\
     msg_role m1 = msg_role m2) /\
  (forall m1 m2,
     msg_userId m1 = "u-1"%string -> msg_cameraId m1 = "cam"%string ->
     msg_userId m2 = "u"%string -> msg_cameraId m2 = "1-cam"%string ->
     msg_role m1 = msg_role m2 -> getSessionId m1 = getSessionId m2).
Proof.
  split.
  - intros m1 m2 Hu1 Hu2 Hr1 Hr2 E. unfold getSessionId in E. simpl in E.
    destruct (dash_split_prefix _ _ _ _ Hu1 Hu2 E) as [Hu E'].
    destruct (dash_split_suffix _ _ _ _ Hr1 Hr2 E') as [Hc Hr].
    split; [exact Hu|split; assumption].
  - intros m1 m2 H1 H2 H3 H4 H5. unfold getSessionId. rewrite H1, H2, H3, H4, H5. reflexivity.
Qed.

(* ------------------------------------------------------------------ *)
(** ** Early ICE candidates of a video session *)

Lemma fetchIceQueue_fst st k : (_fetchIceQueue st k).1 = default [] (vs_iceQueues st !! k).
Proof. unfold _fetchIceQueue. destruct (vs_iceQueues st !! k); reflexivity. Qed.

Lemma handleIceCandidate_no_session m st :
  getSession st (getSessionId m) = None ->
  let st' := handleIceCandidate m st in
  vs_sessions st' = vs_sessions st /\ vs_log st' = vs_log st /\
  vs_frames st' = vs_frames st /\ vs_next_obj st' = vs_next_obj st /\
  vs_iceQueues st' !! getSessionId m =
    Some (default [] (vs_iceQueues st !! getSessionId m) ++ [msg_candidate m]).
Proof.
  intros Hg. unfold handleIceCandidate. rewrite Hg. simpl.
  unfold _fetchIceQueue. destruct (vs_iceQueues st !! getSessionId m) eqn:E;
    simpl; rewrite ?E; (split; [reflexivity|split; [reflexivity|split; [reflexivity|split; [reflexivity|]]]]);
    rewrite lookup_insert_eq; reflexivity.
Qed.

Lemma ice_arrivals_queue sid ms st :
  Forall (fun m => getSessionId m = sid) ms ->
  getSession st sid = None ->
  let st' := fold_left (fun st m => handleIceCandidate m st) ms st in
  vs_sessions st' = vs_sessions st /\ vs_log st' = vs_log st /\
  vs_frames st' = vs_frames st /\ vs_next_obj st' = vs_next_obj st /\
  default [] (vs_iceQueues st' !! sid) =
    default [] (vs_iceQueues st !! sid) ++ map msg_candidate ms.
Proof.
  revert st. induction ms as [|m ms IH]; intros st Hk Hg; simpl.
  - rewrite app_nil_r. repeat split.
  - apply Forall_cons in Hk as [Hm Hk].
    pose proof (handleIceCandidate_no_session m st) as H1. rewrite Hm in H1.
    destruct (H1 Hg) as (Hs & Hl & Hf & Hn & Hq).
    assert (Hg' : getSession (handleIceCandidate m st) sid = None).
    { unfold getSession. rewrite Hs. exact Hg. }
    destruct (IH _ Hk Hg') as (Hs' & Hl' & Hf' & Hn' & Hq').
    rewrite Hs', Hl', Hf', Hn', Hq', Hs, Hl, Hf, Hn, Hq. simpl.
    rewrite <- app_assoc. repeat split.
Qed.

Lemma flushIceQueue_fields st k v q b :
  vs_log (_flushIceQueue st k v q b) = vs_log st ++ map (fun c => VVideoIceCandidate (v_obj v) c) q /\
  vs_frames (_flushIceQueue st k v q b) = vs_frames st /\
  vs_iceQueues (_flushIceQueue st k v q b) =
    if b then <[k := []]> (vs_iceQueues st) else vs_iceQueues st.
Proof.
  unfold _flushIceQueue.
  assert (H : forall st0,
    vs_log (fold_left (fun st c => vs_log_ev st (VVideoIceCandidate (v_obj v) c)) q st0)
      = vs_log st0 ++ map (fun c => VVideoIceCandidate (v_obj v) c) q /\
    vs_frames (fold_left (fun st c => vs_log_ev st (VVideoIceCandidate (v_obj v) c)) q st0)
      = vs_frames st0 /\
    vs_iceQueues (fold_left (fun st c => vs_log_ev st (VVideoIceCandidate (v_obj v) c)) q st0)
      = vs_iceQueues st0).
  { induction q as [|c q IH]; intros st0; simpl.
    - rewrite app_nil_r. repeat split.
    - destruct (IH (vs_log_ev st0 (VVideoIceCandidate (v_obj v) c))) as (H1 & H2 & H3).
      rewrite H1, H2, H3. simpl. rewrite <- app_assoc. repeat split. }
  destruct (H st) as (H1 & H2 & H3). destruct b; simpl; rewrite ?H3; auto.
Qed.

(** Candidates of a key with no session are queued in arrival order; the
    [start] of that key that succeeds then hands the queue, in order, to
    the new [Video] right after [video.start], and leaves the key's queue
    empty. *)
Theorem ice_candidates_before_start_forwarded env req st ms answer
  (Hk : Forall (fun m => getSessionId m = getSessionId req) ms)
  (Hg : getSession st (getSessionId req) = None)
  (Hp : _getPermission env req = None) (Hs : ve_videoStart env = Ok answer) :
  let n := vs_next_obj st in
  let st' := handleStart env req (fold_left (fun st m => handleIceCandidate m st) ms st) in
  vs_log st' = vs_log st ++
    [VNewVideo n (getSessionId req); VVideoStart n (msg_sdpOffer req)] ++
    map (VVideoIceCandidate n)
        (default [] (vs_iceQueues st !! getSessionId req) ++ map msg_candidate ms) /\
  vs_iceQueues st' !! getSessionId req = Some [] /\
  vs_frames st' = vs_frames st ++
    [FVideoStartResponse (msg_connectionId req) (msg_role req) (msg_cameraId req) answer].
Proof.
  intros n st'.
  destruct (ice_arrivals_queue _ ms st Hk Hg) as (Hs1 & Hl1 & Hf1 & Hn1 & Hq1).
  set (st1 := fold_left (fun st m => handleIceCandidate m st) ms st) in *.
  assert (Hg1 : getSession st1 (getSessionId req) = None).
  { unfold getSession. rewrite Hs1. exact Hg. }
  unfold st', handleStart. rewrite Hp, Hg1, Hs.
  pose proof (fetchIceQueue_fst st1 (getSessionId req)) as Hq.
  destruct (fetchIceQueue_keeps st1 (getSessionId req)) as (_ & Hl2 & Hn2 & Hf2 & _).
  destruct (_fetchIceQueue st1 (getSessionId req)) as [q st2]. simpl in Hq, Hl2, Hn2, Hf2.
  rewrite Hq1 in Hq. subst q.
  match goal with |- context [_flushIceQueue ?a ?b ?c ?d ?f] =>
    destruct (flushIceQueue_fields a b c d f) as (F1 & F2 & F3) end.
  unfold vs_send; cbn [vs_log vs_frames vs_iceQueues]. rewrite F1, F2, F3. simpl.
  rewrite Hl2, Hn2, Hf2, Hl1, Hf1, Hn1. fold n.
  refine (conj _ (conj _ _)).
  - rewrite <- !app_assoc. reflexivity.
  - rewrite lookup_insert_eq. reflexivity.
  - reflexivity.
Qed.

(* ------------------------------------------------------------------ *)
(** ** [handleClose] *)

Lemma push_keys_app l1 l2 : push_keys (l1 ++ l2) = push_keys l1 ++ push_keys l2.
Proof. induction l1 as [|[] l1 IH]; simpl; rewrite ?IH; reflexivity. Qed.

(** [handleClose] pushes, in table order, one close task on the queue of
    every session of the closed connection and nothing else, and keeps
    the manager's queues reachable. *)
Theorem handleClose_pushes_connection_sessions m sessions s :
  exists rest,
    sys_log (handleClose m sessions s) = sys_log s ++ rest /\
    forallb is_push rest = true /\
    push_keys rest =
      map (fun p => (p.1, TCloseSession p.1))
          (List.filter (fun p => String.eqb (v_connectionId p.2) (msg_connectionId m)) sessions) /\
    (reachable s -> reachable (handleClose m sessions s)).
Proof.
  unfold handleClose, _killConnectionSessions. revert s.
  induction sessions as [|[k v] sessions IH]; intros s; simpl.
  - exists []. rewrite app_nil_r. repeat split. exact id.
  - destruct (String.eqb (v_connectionId v) (msg_connectionId m)).
    + destruct (IH (push s k (TCloseSession k))) as (rest & Hl & Hp & Hk & Hr).
      exists (EPush k (sys_next s) (TCloseSession k) :: rest).
      rewrite Hl. simpl. rewrite <- app_assoc. simpl.
      refine (conj eq_refl (conj Hp (conj _ _))); [rewrite Hk; reflexivity|].
      intros H. apply Hr. apply reach_kill. exact H.
    + exact (IH s).
Qed.

(** A message is rejected at once, with one [SFU_INVALID_REQUEST] frame
    and one error metric labelled with its [id] ([event] when it has
    none), when its header fails to parse under strict parsing or its
    [id] is none of the six handled ones; it is then never queued, and
    the session table, the ICE queues and the video log are kept. *)
Theorem invalid_request_rejected ws_strict header_ok m st :
  (negb header_ok && ws_strict = true \/
   ~ In (msg_id m) ["start"; "subscriberAnswer"; "stop"; "onIceCandidate"; "close"; "error"]%string) ->
  onMessage ws_strict header_ok m = DInvalidRequest m /\
  let st' := onMessage_immediate ws_strict header_ok m st in
  vs_frames st' = vs_frames st ++
    [FVideoError (msg_connectionId m) (msg_cameraId m) (msg_role m) SFU_INVALID_REQUEST] /\
  vs_errors st' = vs_errors st ++
    [(if String.eqb (msg_id m) "" then "event"%string else msg_id m, SFU_INVALID_REQUEST)] /\
  vs_sessions st' = vs_sessions st /\ vs_iceQueues st' = vs_iceQueues st /\
  vs_log st' = vs_log st.
Proof.
  intros H.
  assert (Hd : onMessage ws_strict header_ok m = DInvalidRequest m).
  { unfold onMessage. destruct H as [H|H]; [rewrite H; reflexivity|].
    destruct (negb header_ok && ws_strict); [reflexivity|].

    destruct (String.eqb_spec (msg_id m) "start"); [exfalso; apply H; simpl; auto 7|].
    destruct (String.eqb_spec (msg_id m) "subscriberAnswer"); [exfalso; apply H; simpl; auto 7|].
    destruct (String.eqb_spec (msg_id m) "stop"); [exfalso; apply H; simpl; auto 7|].
    destruct (String.eqb_spec (msg_id m) "onIceCandidate"); [exfalso; apply H; simpl; auto 7|].
    destruct (String.eqb_spec (msg_id m) "close"); [exfalso; apply H; simpl; auto 7|].
    destruct (String.eqb_spec (msg_id m) "error"); [exfalso; apply H; simpl; auto 7|].
    reflexivity. }
  split; [exact Hd|]. unfold onMessage_immediate. rewrite Hd. simpl. repeat split.
Qed.

(* ------------------------------------------------------------------ *)
(** ** Stop, restart of the stop, and what follows it *)

Lemma truthy_some s : s <> ""%string -> truthy (Some s) = true.
Proof. intros H. simpl. destruct (String.eqb_spec s ""); [contradiction|reflexivity]. Qed.

Ltac nonempty_tac :=
  repeat match goal with
  | |- context [String.eqb ?x ""%string] =>
      destruct (String.eqb_spec x ""%string); [contradiction|]
  end; simpl.

Lemma tr_stop_calls t w :
  w_calls (tr_stop t w).2 =
    w_calls w ++
    (if truthy (tr_mediaId t) && truthy (tr_mcsUserId t)
     then [CUnpublish (default "" (tr_mcsUserId t)) (default "" (tr_mediaId t))] else []) ++
    (if tr_bridge t then [CBridgeStop] else []).
Proof.
  destruct t as [c u vb uid mid fT sT q br bmid]. unfold tr_stop.
  destruct fT, sT; simpl;
    destruct (truthy mid && truthy uid); destruct br; simpl; rewrite ?app_nil_r, <- ?app_assoc; reflexivity.
Qed.

Lemma tr_stop_fields t w :
  let t1 := (tr_stop t w).1 in
  tr_mediaId t1 = tr_mediaId t /\ tr_mcsUserId t1 = tr_mcsUserId t /\
  tr_connectionId t1 = tr_connectionId t /\
  tr_candidatesQueue t1 = [] /\ tr_bridge t1 = false /\
  tr_mediaFlowingTimeout t1 = None /\ tr_mediaStateTimeout t1 = None.
Proof.
  destruct t as [c u vb uid mid fT sT q br bmid]. unfold tr_stop.
  destruct fT, sT; simpl; destruct (truthy mid && truthy uid); destruct br; simpl; repeat split.
Qed.


(** After [stop], a client ICE candidate still reaches [mcs.addIceCandidate]
    on the old media id: [stop] empties the queue but keeps [mediaId]. *)
Theorem ice_after_stop_forwarded t w c mid
  (Hm : tr_mediaId t = Some mid) (Hne : mid <> ""%string) :
  let '(t1, w1) := tr_stop t w in
  (onIceCandidate t1 w1 c).2 = w_call w1 (CAddIceCandidate mid c) /\
  tr_candidatesQueue (onIceCandidate t1 w1 c).1 = [].
Proof.
  pose proof (tr_stop_fields t w) as (Hm1 & _ & _ & Hq1 & _).
  destruct (tr_stop t w) as [t1 w1]. simpl in Hm1, Hq1.
  unfold onIceCandidate, _flushCandidatesQueue. rewrite Hm1, Hm, truthy_some by exact Hne.
  rewrite Hq1. simpl. split; reflexivity.
Qed.

(** A [start] whose [mcs.publish] resolved but whose bridge start or
    [consume] then rejected fails, yet records the media id; a later
    [stop] therefore unpublishes it. *)
Theorem start_failure_after_publish_unpublished env sdpOffer t w uid mid
  (Hw : se_waitForConnection env = true) (Hj : se_join env = Ok uid)
  (Hpub : se_publish env = Ok mid) (Hu : uid <> ""%string) (Hm : mid <> ""%string)
  (Hfail : is_fail (se_bridgeStart env) = true \/
           (is_fail (se_bridgeStart env) = false /\ is_fail (se_consume env) = true)) :
  let '(r, t', w') := start env sdpOffer t w in
  is_fail r = true /\ tr_mediaId t' = Some mid /\
  w_calls (tr_stop t' w').2 =
    w_calls w' ++ [CUnpublish uid mid] ++ (if tr_bridge t then [CBridgeStop] else []).
Proof.
  unfold start. rewrite Hw, Hj. simpl. unfold _negotiateTransceiver. rewrite Hpub.
  destruct (se_bridgeStart env) as [bmid|e] eqn:Eb; simpl in Hfail.
  - destruct Hfail as [[=]|[_ Hc]].
    destruct (se_consume env) as [ans|e]; [discriminate|]. simpl.
    refine (conj eq_refl (conj eq_refl _)). rewrite tr_stop_calls. simpl.
    nonempty_tac. reflexivity.
  - simpl. refine (conj eq_refl (conj eq_refl _)). rewrite tr_stop_calls. simpl.
    nonempty_tac. reflexivity.
Qed.

(** A [start] that fails before [mcs.publish] resolves (no MCS
    connection, or [join] or [publish] rejecting) records no media id, so
    a later [stop] calls no [unpublish]. *)
Theorem start_failure_before_publish_no_unpublish env sdpOffer t w
  (Hm : tr_mediaId t = None)
  (Hfail : se_waitForConnection env = false \/ is_fail (se_join env) = true \/
           is_fail (se_publish env) = true) :
  let '(r, t', w') := start env sdpOffer t w in
  is_fail r = true /\ tr_mediaId t' = None /\
  w_calls (tr_stop t' w').2 = w_calls w' ++ (if tr_bridge t then [CBridgeStop] else []).
Proof.
  unfold start. destruct (se_waitForConnection env) eqn:Ew; simpl.
  - destruct (se_join env) as [uid|e] eqn:Ej; simpl.
    + destruct Hfail as [[=]|[Hj|Hp]]; [discriminate|].
      unfold _negotiateTransceiver. destruct (se_publish env) as [mid|e]; [discriminate|].
      simpl. refine (conj eq_refl (conj Hm _)). rewrite tr_stop_calls. simpl.
      rewrite Hm. reflexivity.
    + refine (conj eq_refl (conj Hm _)). rewrite tr_stop_calls, Hm. reflexivity.
  - refine (conj eq_refl (conj Hm _)). rewrite tr_stop_calls, Hm. reflexivity.
Qed.

(** After a [start] that resolves, [processAnswer(answer)] publishes
    again with the answer, under the [join]ed user and the room; on a
    transceiver with no media id it calls nothing. *)
Theorem processAnswer_after_start env sdpOffer t w uid mid bmid ans answer
  (Hw : se_waitForConnection env = true) (Hj : se_join env = Ok uid)
  (Hpub : se_publish env = Ok mid) (Hb : se_bridgeStart env = Ok bmid)
  (Hc : se_consume env = Ok ans) (Hm : mid <> ""%string) :
  let '(r, t', w') := start env sdpOffer t w in
  r = Ok ans /\
  tr_processAnswer t' w' answer = w_call w' (CPublish uid (tr_voiceBridge t) answer) /\
  (tr_mediaId t = None -> tr_processAnswer t w answer = w).
Proof.
  unfold start. rewrite Hw, Hj. simpl. unfold _negotiateTransceiver. rewrite Hpub, Hb, Hc.
  unfold _flushCandidatesQueue, tr_processAnswer. cbn. nonempty_tac.
  refine (conj eq_refl (conj _ _)).
  - nonempty_tac. reflexivity.
  - intros H. unfold tr_processAnswer. rewrite H. reflexivity.
Qed.

(* ------------------------------------------------------------------ *)
(** ** A watchdog that fired *)


(* ------------------------------------------------------------------ *)
(** ** Disconnecting and starting an audio session *)

(** [disconnectUser] stops the session and then sends one [close] frame
    to the client: afterwards the endpoint slot is empty, so ICE
    candidates are dropped and [dtmf] sends nothing, and a second
    [disconnectUser] changes nothing but a further [close] frame. *)
Theorem disconnectUser_stops_then_closes (Endpoint : Type)
    (ep_name : Endpoint -> string) (ep_world_stop : Endpoint -> World -> World)
    (ep_ice : Endpoint -> string -> AWorld -> AWorld)
    (ep_dtmf : Endpoint -> option (string -> string))
    (s : AudioSession Endpoint) (aw : AWorld) :
  let '(s1, aw1) := as_disconnectUser ep_name ep_world_stop s aw in
  s1 = (as_stop ep_name ep_world_stop s aw).1 /\
  aw_listeners aw1 = aw_listeners (as_stop ep_name ep_world_stop s aw).2 /\
  aw_world aw1 = w_send (aw_world (as_stop ep_name ep_world_stop s aw).2)
                        (FAudioClose (as_connectionId s)) /\
  (forall c, as_onIceCandidate ep_ice s1 c aw1 = aw1) /\
  (forall tones, as_dtmf ep_dtmf s1 tones = ""%string) /\
  as_disconnectUser ep_name ep_world_stop s1 aw1
    = (s1, aw_map_world (fun w => w_send w (FAudioClose (as_connectionId s))) aw1).
Proof.
  destruct s as [sid uid cid [e|]];
    unfold as_disconnectUser, as_stop, clientEndpoint_set_null, _clearClientEndpointEvents;
    simpl; (split; [reflexivity|split; [reflexivity|split; [reflexivity|]]]);
    (split; [reflexivity|split; [reflexivity|]]);
    unfold ep_detach, ep_stop.
  - rewrite (removeListener_absent (LUserLeft uid sid)); [|absent_tac].
    rewrite (removeListener_absent (LSessionMcsDisconnected sid)); [reflexivity|absent_tac].
  - rewrite (removeListener_absent (LUserLeft uid sid)); [|absent_tac].
    rewrite (removeListener_absent (LSessionMcsDisconnected sid)); [reflexivity|absent_tac].
Qed.

(** [AudioSession.start]: with role [sendrecv] and full audio disabled it
    rejects with [SFU_INVALID_REQUEST] and changes nothing.  For a
    listener whose meeting has no running consumer bridge, a rejecting
    [bridge.start] fails [start] with the normalised error and leaves the
    session and its listeners as they were, but the bridge stays stored
    ([storeConsumerBridge] runs before the awaited [start]): the next
    listener of the meeting restarts that same bridge, constructs none,
    and on success is given a consumer on it.  If the transceiver's
    [start] rejects, the endpoint stays in the session, so a later [stop]
    runs that endpoint's [stop]. *)
Theorem audio_session_start_outcomes (Endpoint : Type)
    (ep_name : Endpoint -> string) (ep_world_stop : Endpoint -> World -> World)
    (meetingId voiceBridge : string) (transceiver : Endpoint) (consumer : nat -> Endpoint)
    (ep_start : Endpoint -> Res string)
    (s : AudioSession Endpoint) (aw : AWorld) (bs : BridgeStore) :
  (forall isRunning bridge_start,
     as_start ep_name "sendrecv" false meetingId voiceBridge transceiver consumer
              isRunning bridge_start ep_start s aw bs
     = (Fail (ECatalog SFU_INVALID_REQUEST), s, aw, bs)) /\
  (forall role fullAudio isRunning e,
     role <> "sendrecv"%string ->
     (forall b, bs_map bs !! meetingId = Some b -> isRunning b = false) ->
     let '(r, s1, aw1, bs1) :=
       as_start ep_name role fullAudio meetingId voiceBridge transceiver consumer
                isRunning (Fail e) ep_start s aw bs in
     r = Fail (ECatalog (handleError e)) /\ s1 = s /\ aw1 = aw /\
     exists b, bs_map bs1 !! meetingId = Some b /\
       forall isRunning' bridge_start',
         isRunning' b = false ->
         let '(r2, s2, aw2, bs2) :=
           as_start ep_name role fullAudio meetingId voiceBridge transceiver consumer
                    isRunning' bridge_start' ep_start s1 aw1 bs1 in
         bs_map bs2 = bs_map bs1 /\ bs_calls bs2 = bs_calls bs1 ++ [BStart b] /\
         (bridge_start' = Ok tt -> as_clientEndpoint s2 = Some (consumer b))) /\
  (forall isRunning bridge_start err,
     ep_start transceiver = Fail err ->
     as_start ep_name "sendrecv" true meetingId voiceBridge transceiver consumer
              isRunning bridge_start ep_start s aw bs
     = (Fail (ECatalog (handleError err)), set_clientEndpoint s transceiver, aw, bs) /\
     aw_world (as_stop ep_name ep_world_stop (set_clientEndpoint s transceiver) aw).2
       = ep_world_stop transceiver (aw_world aw)).
Proof.
  split; [|split].
  - intros isRunning bridge_start. reflexivity.
  - intros role fullAudio isRunning e Hr Hrun.
    apply String.eqb_neq in Hr.
    unfold as_start. rewrite Hr. unfold _startConsumerBridge at 1.
    destruct (bs_map bs !! meetingId) as [b|] eqn:Em.
    + rewrite (Hrun b eq_refl). cbn.
      refine (conj eq_refl (conj eq_refl (conj eq_refl _))).
      exists b. split; [exact Em|].
      intros isRunning' bridge_start' Hb. unfold _startConsumerBridge. cbn. rewrite Em, Hb.
      destruct bridge_start'; cbn; [destruct (ep_start (consumer b)); cbn|];
        (split; [reflexivity|split; [reflexivity|]]); first [intros _; reflexivity | intros [=]].
    + cbn. refine (conj eq_refl (conj eq_refl (conj eq_refl _))).
      exists (bs_next bs). split; [apply lookup_insert_eq|].
      intros isRunning' bridge_start' Hb. unfold _startConsumerBridge. cbn.
      rewrite lookup_insert_eq, Hb.
      destruct bridge_start'; cbn; [destruct (ep_start (consumer (bs_next bs))); cbn|];
        (split; [reflexivity|split; [reflexivity|]]); first [intros _; reflexivity | intros [=]].
  - intros isRunning bridge_start err He. unfold as_start. cbn. rewrite He.
    split; reflexivity.
Qed.

(* ------------------------------------------------------------------ *)
(** ** The consumer-bridge registry *)

Lemma new_meetings_app l1 l2 : new_meetings (l1 ++ l2) = new_meetings l1 ++ new_meetings l2.
Proof. induction l1 as [|[] l1 IH]; simpl; rewrite ?IH; reflexivity. Qed.

Definition bs_inv (bs : BridgeStore) : Prop :=
  NoDup (new_meetings (bs_calls bs)) /\
  (forall m, In m (new_meetings (bs_calls bs)) <-> bs_map bs !! m <> None) /\
  (forall m b, bs_map bs !! m = Some b -> b < bs_next bs) /\
  (forall m1 m2 b, bs_map bs !! m1 = Some b -> bs_map bs !! m2 = Some b -> m1 = m2).

Lemma bs_inv_step bs isRunning start_res m vb :
  bs_inv bs -> bs_inv (_startConsumerBridge isRunning start_res m vb bs).2.
Proof.
  intros (Hnd & Hin & Hlt & Hinj). unfold _startConsumerBridge.
  destruct (bs_map bs !! m) as [b|] eqn:Em.
  - destruct (isRunning b); [exact (conj Hnd (conj Hin (conj Hlt Hinj)))|].
    unfold bs_inv; cbn [snd bs_map bs_next bs_calls].
    rewrite new_meetings_app. simpl. rewrite app_nil_r.
    exact (conj Hnd (conj Hin (conj Hlt Hinj))).
  - unfold bs_inv; cbn [snd bs_map bs_next bs_calls].
    rewrite new_meetings_app. simpl.
    assert (Hm : ~ In m (new_meetings (bs_calls bs))) by (rewrite Hin; congruence).
    split; [|split; [|split]].
    + apply NoDup_app. split; [exact Hnd|split; [|apply NoDup_singleton]].
      intros x Hx ->%list_elem_of_singleton. apply Hm, list_elem_of_In, Hx.
    + intros m'. rewrite in_app_iff. simpl.
      destruct (decide (m = m')) as [<-|Hne].
      * rewrite lookup_insert_eq. split; [congruence|auto].
      * rewrite lookup_insert_ne by exact Hne. rewrite <- Hin.
        split; [intros [H|[H|[]]]; [exact H|congruence]|auto].
    + intros m' b. rewrite lookup_insert_Some.
      intros [[_ <-]|[_ Hb]]; [lia|]. apply Hlt in Hb. lia.
    + intros m1 m2 b. rewrite !lookup_insert_Some.
      intros [[<- <-]|[Hn1 H1]] [[<- Hb]|[Hn2 H2]]; try reflexivity.
      * apply Hlt in H2. lia.
      * subst b. apply Hlt in H1. lia.
      * exact (Hinj _ _ _ H1 H2).
Qed.

Lemma bs_inv_reach bs : bs_reach bs -> bs_inv bs.
Proof.
  induction 1 as [|bs isRunning start_res m vb _ IH].
  - unfold bs_inv; cbn. repeat split.
    + constructor.
    + intros [].
    + rewrite lookup_empty. congruence.
    + intros m b. rewrite lookup_empty. discriminate.
    + intros m1 m2 b. rewrite lookup_empty. discriminate.
  - apply bs_inv_step, IH.
Qed.

(** Through any sequence of [_startConsumerBridge] calls, at most one
    [FSConsumerBridge] is constructed per meeting, exactly the meetings
    with a stored bridge had one constructed, and no two meetings share
    a bridge.  A call never replaces a stored bridge, resolves to the
    bridge stored for its meeting, and constructs none when one is
    stored. *)
Theorem consumer_bridge_registry bs (Hr : bs_reach bs) :
  NoDup (new_meetings (bs_calls bs)) /\
  (forall m, In m (new_meetings (bs_calls bs)) <-> bs_map bs !! m <> None) /\
  (forall m1 m2 b, bs_map bs !! m1 = Some b -> bs_map bs !! m2 = Some b -> m1 = m2) /\
  (forall isRunning start_res m vb,
     let '(r, bs') := _startConsumerBridge isRunning start_res m vb bs in
     (forall m' b, bs_map bs !! m' = Some b -> bs_map bs' !! m' = Some b) /\
     (forall b, r = Ok b -> bs_map bs' !! m = Some b) /\
     (bs_map bs !! m <> None -> new_meetings (bs_calls bs') = new_meetings (bs_calls bs))).
Proof.
  destruct (bs_inv_reach bs Hr) as (Hnd & Hin & Hlt & Hinj).
  split; [exact Hnd|split; [exact Hin|split; [exact Hinj|]]].
  intros isRunning start_res m vb. unfold _startConsumerBridge.
  destruct (bs_map bs !! m) as [b|] eqn:Em.
  - destruct (isRunning b).
    + split; [auto|split; [intros b' [= <-]; exact Em|auto]].
    + cbn [bs_map bs_calls]. split; [auto|split].
      * destruct start_res; intros b' [= <-]; exact Em.
      * intros _. rewrite new_meetings_app. simpl. apply app_nil_r.
  - cbn [bs_map bs_calls]. split; [|split; [|intros []; reflexivity]].
    + intros m' b Hb. rewrite lookup_insert_ne; [exact Hb|congruence].
    + destruct start_res; intros b' [= <-]. apply lookup_insert_eq.
Qed.

(* ------------------------------------------------------------------ *)
(** ** Instances of the hypotheses of the further properties *)

Lemma ice_candidates_before_start_forwarded_witness :
  Forall (fun m => getSessionId m = getSessionId ex_start_request) [ex_ice_message] /\
  getSession ex_empty_state (getSessionId ex_start_request) = None /\
  _getPermission (mkVStartEnv None None (Ok "answer")) ex_start_request = None /\
  ve_videoStart (mkVStartEnv None None (Ok "answer")) = Ok "answer"%string /\
  vs_log (handleStart (mkVStartEnv None None (Ok "answer")) ex_start_request
            (fold_left (fun st m => handleIceCandidate m st) [ex_ice_message] ex_empty_state))
  = [VNewVideo 0 (getSessionId ex_start_request); VVideoStart 0 "offer";
     VVideoIceCandidate 0 "cand1"].
Proof.
  assert (Hk : Forall (fun m => getSessionId m = getSessionId ex_start_request) [ex_ice_message])
    by (constructor; [reflexivity|constructor]).
  assert (Hg : getSession ex_empty_state (getSessionId ex_start_request) = None) by reflexivity.
  assert (Hp : _getPermission (mkVStartEnv None None (Ok "answer")) ex_start_request = None)
    by reflexivity.
  assert (Hs : ve_videoStart (mkVStartEnv None None (Ok "answer")) = Ok "answer"%string)
    by reflexivity.
  refine (conj Hk (conj Hg (conj Hp (conj Hs _)))).
  exact (proj1 (ice_candidates_before_start_forwarded _ _ _ _ _ Hk Hg Hp Hs)).
Defined.

Lemma invalid_request_rejected_witness :
  ~ In (msg_id ex_unknown_message)
       ["start"; "subscriberAnswer"; "stop"; "onIceCandidate"; "close"; "error"]%string /\
  onMessage false true ex_unknown_message = DInvalidRequest ex_unknown_message /\
  vs_errors (onMessage_immediate false true ex_unknown_message ex_empty_state)
  = [("bogus"%string, SFU_INVALID_REQUEST)].
Proof.
  assert (Hn : ~ In (msg_id ex_unknown_message)
       ["start"; "subscriberAnswer"; "stop"; "onIceCandidate"; "close"; "error"]%string)
    by (simpl; intuition discriminate).
  destruct (invalid_request_rejected false true ex_unknown_message ex_empty_state (or_intror Hn))
    as [Hd (_ & He & _)].
  exact (conj Hn (conj Hd He)).
Defined.

Lemma ice_after_stop_forwarded_witness :
  tr_mediaId ex_started_tr = Some "m1"%string /\ "m1"%string <> ""%string /\
  (onIceCandidate (tr_stop ex_started_tr ex_empty_world).1
                  (tr_stop ex_started_tr ex_empty_world).2 "cand1").2
  = w_call (tr_stop ex_started_tr ex_empty_world).2 (CAddIceCandidate "m1" "cand1").
Proof.
  assert (Hm : tr_mediaId ex_started_tr = Some "m1"%string) by reflexivity.
  assert (Hne : "m1"%string <> ""%string) by discriminate.
  refine (conj Hm (conj Hne _)).
  exact (proj1 (ice_after_stop_forwarded ex_started_tr ex_empty_world "cand1" _ Hm Hne)).
Defined.

Lemma start_failure_after_publish_unpublished_witness :
  se_waitForConnection ex_env_bridge_fails = true /\ se_join ex_env_bridge_fails = Ok "u1"%string /\
  se_publish ex_env_bridge_fails = Ok "m1"%string /\
  tr_mediaId (start ex_env_bridge_fails "offer" ex_tr ex_empty_world).1.2 = Some "m1"%string.
Proof.
  assert (Hw : se_waitForConnection ex_env_bridge_fails = true) by reflexivity.
  assert (Hj : se_join ex_env_bridge_fails = Ok "u1"%string) by reflexivity.
  assert (Hpub : se_publish ex_env_bridge_fails = Ok "m1"%string) by reflexivity.
  assert (Hu : "u1"%string <> ""%string) by discriminate.
  assert (Hm : "m1"%string <> ""%string) by discriminate.
  assert (Hf : is_fail (se_bridgeStart ex_env_bridge_fails) = true \/
               (is_fail (se_bridgeStart ex_env_bridge_fails) = false /\
                is_fail (se_consume ex_env_bridge_fails) = true)) by (left; reflexivity).
  refine (conj Hw (conj Hj (conj Hpub _))).
  pose proof (start_failure_after_publish_unpublished ex_env_bridge_fails "offer" ex_tr
                ex_empty_world _ _ Hw Hj Hpub Hu Hm Hf) as H.
  destruct (start ex_env_bridge_fails "offer" ex_tr ex_empty_world) as [[r t'] w'].
  exact (proj1 (proj2 H)).
Defined.

Lemma start_failure_before_publish_no_unpublish_witness :
  tr_mediaId ex_tr = None /\ se_waitForConnection ex_env_no_connection = false /\
  tr_mediaId (start ex_env_no_connection "offer" ex_tr ex_empty_world).1.2 = None.
Proof.
  assert (Hm : tr_mediaId ex_tr = None) by reflexivity.
  assert (Hw : se_waitForConnection ex_env_no_connection = false) by reflexivity.
  refine (conj Hm (conj Hw _)).
  pose proof (start_failure_before_publish_no_unpublish ex_env_no_connection "offer" ex_tr
                ex_empty_world Hm (or_introl Hw)) as H.
  destruct (start ex_env_no_connection "offer" ex_tr ex_empty_world) as [[r t'] w'].
  exact (proj1 (proj2 H)).
Defined.

Lemma processAnswer_after_start_witness :
  se_waitForConnection ex_env_ok = true /\ se_join ex_env_ok = Ok "u1"%string /\
  se_publish ex_env_ok = Ok "m1"%string /\ se_bridgeStart ex_env_ok = Ok "bm1"%string /\
  se_consume ex_env_ok = Ok "A"%string /\
  (start ex_env_ok "offer" ex_tr ex_empty_world).1.1 = Ok "A"%string.
Proof.
  assert (Hw : se_waitForConnection ex_env_ok = true) by reflexivity.
  assert (Hj : se_join ex_env_ok = Ok "u1"%string) by reflexivity.
  assert (Hpub : se_publish ex_env_ok = Ok "m1"%string) by reflexivity.
  assert (Hb : se_bridgeStart ex_env_ok = Ok "bm1"%string) by reflexivity.
  assert (Hc : se_consume ex_env_ok = Ok "A"%string) by reflexivity.
  assert (Hm : "m1"%string <> ""%string) by discriminate.
  refine (conj Hw (conj Hj (conj Hpub (conj Hb (conj Hc _))))).
  pose proof (processAnswer_after_start ex_env_ok "offer" ex_tr ex_empty_world _ _ _ _
                "answer" Hw Hj Hpub Hb Hc Hm) as H.
  destruct (start ex_env_ok "offer" ex_tr ex_empty_world) as [[r t'] w'].
  exact (proj1 H).
Defined.


Lemma consumer_bridge_registry_witness :
  bs_reach ex_bs2 /\
  bs_calls ex_bs2 = [BNew 0 "m1" "vb1"; BStart 0; BStart 0] /\
  NoDup (new_meetings (bs_calls ex_bs2)) /\ bs_map ex_bs2 !! "m1"%string <> None.
Proof.
  assert (Hr : bs_reach ex_bs2) by (unfold ex_bs2, ex_bs1; apply bs_step, bs_step, bs_init).
  assert (Hc : bs_calls ex_bs2 = [BNew 0 "m1" "vb1"; BStart 0; BStart 0]) by reflexivity.
  assert (Hin : In "m1"%string (new_meetings (bs_calls ex_bs2))) by (rewrite Hc; left; reflexivity).
  destruct (consumer_bridge_registry _ Hr) as (Hnd & Hiff & _).
  exact (conj Hr (conj Hc (conj Hnd (proj1 (Hiff "m1"%string) Hin)))).
Defined.
